(** * The SPDK persistent log of derecho: a shallow embedding

    This development embeds [src/persistent/SPDKPersistLog.cpp] and checks
    the properties its specification states about it.

    The facade keeps one metadata record per log and reaches the device
    through [PersistThreads], whose functions hand out raw pointers: a
    [LogEntry*] into the entry space and a [void*] into the data space.
    The facade reads and writes entry fields through those pointers and
    moves bytes with [std::copy], so entries, payloads and the
    serialization buffers are all modelled as byte memories addressed
    by [Z], with 64-bit little-endian fields.

    Integers are [Z].  Conversions that C++ defines (to an unsigned type,
    and the narrowing [int mid = ...] as two's complement compilers do it)
    are written out; signed overflow, which is undefined, is not
    modelled: signed sums and differences are taken in [Z].  The
    reader-writer locks only order concurrent callers and are left out of
    this sequential model. *)

From Stdlib Require Import ZArith List Bool Lia.
From coqutil Require Import Byte Word.LittleEndianList.
Import ListNotations.
Local Open Scope Z_scope.

(** ** Machine integers *)

Module Int.

(** Conversion to [uint64_t] / [size_t]. *)
Definition u64 (z : Z) : Z := z mod 2 ^ 64.

(** Reading 64 bits as [int64_t]. *)
Definition s64 (z : Z) : Z := (z + 2 ^ 63) mod 2 ^ 64 - 2 ^ 63.

(** Narrowing to [int]. *)
Definition s32 (z : Z) : Z := (z + 2 ^ 31) mod 2 ^ 32 - 2 ^ 31.

Definition int64_range (z : Z) : Prop := - 2 ^ 63 <= z < 2 ^ 63.

Definition sizeof_int64 : Z := 8.

End Int.
Import Int.

(** ** Byte memories *)

Module Mem.

(** A memory region seen from a base pointer: offset to byte. *)
Definition bytes : Type := Z -> byte.

Definition zeroed : bytes := fun _ => Byte.x00.

Definition load_bytes (m : bytes) (a : Z) (n : nat) : list byte :=
  map (fun k => m (a + Z.of_nat k)) (seq 0 n).

Definition store_bytes (m : bytes) (a : Z) (bs : list byte) : bytes :=
  fun x =>
    if (a <=? x) && (x <? a + Z.of_nat (length bs))
    then nth (Z.to_nat (x - a)) bs Byte.x00
    else m x.

(** [std::copy(first, first + n, d_first)] between two regions. *)
Definition std_copy (src : bytes) (first n : Z) (dst : bytes) (d_first : Z)
  : bytes :=
  fun x =>
    if (d_first <=? x) && (x <? d_first + n)
    then src (first + (x - d_first))
    else dst x.

(** [*(uint64_t* )(m + a)] and [*(int64_t* )(m + a)]. *)
Definition load_u64 (m : bytes) (a : Z) : Z := le_combine (load_bytes m a 8).
Definition load_i64 (m : bytes) (a : Z) : Z := s64 (load_u64 m a).

(** [*(int64_t* )(m + a) = v], also for the unsigned fields. *)
Definition store_64 (m : bytes) (a : Z) (v : Z) : bytes :=
  store_bytes m a (le_split 8 v).

(** The bytes of a list, as a region (zero beyond its end). *)
Definition of_list (bs : list byte) : bytes :=
  fun x => if x <? 0 then Byte.x00 else nth (Z.to_nat x) bs Byte.x00.

End Mem.
Import Mem.

(** ** Data model *)

(** The constants of [SPDKPersistLog.hpp] and [PersistLog.hpp], which are
    not among the sources: they are parameters of the model. *)
Record Config : Type := {
  sizeof_LogEntry : Z;
  SPDK_SEGMENT_BIT : Z;
  SPDK_LOG_ENTRY_ADDRESS_TABLE_LENGTH : Z;
  SPDK_LOG_ADDRESS_SPACE : Z;
  INVALID_INDEX : Z
}.

(** Modelled from the spec: the layout of [LogEntry], whose declaration is
    missing.  The spec gives a packed fixed layout with the fields
    [ver : i64], [hlc_r : u64], [hlc_l : u64], [dlen : u64], [ofst : u64]
    in this order; any bytes after them, up to [sizeof(LogEntry)], carry
    no field. *)
Module LogEntry.
Definition OFF_ver : Z := 0.
Definition OFF_hlc_r : Z := 8.
Definition OFF_hlc_l : Z := 16.
Definition OFF_dlen : Z := 24.
Definition OFF_ofst : Z := 32.

(** [p->fields.f] for a [LogEntry* p] into the region [m]. *)
Definition ver (m : bytes) (p : Z) : Z := load_i64 m (p + OFF_ver).
Definition hlc_r (m : bytes) (p : Z) : Z := load_u64 m (p + OFF_hlc_r).
Definition hlc_l (m : bytes) (p : Z) : Z := load_u64 m (p + OFF_hlc_l).
Definition dlen (m : bytes) (p : Z) : Z := load_u64 m (p + OFF_dlen).
Definition ofst (m : bytes) (p : Z) : Z := load_u64 m (p + OFF_ofst).
End LogEntry.

(** The hybrid logical clock handed to [append] and to the HLC searches. *)
Record HLC : Type := { m_rtc_us : Z; m_logic : Z }.

(** The fields behind the [METADATA] macro. *)
Record LogMetadata : Type := {
  id : Z;
  head : Z;
  tail : Z;
  ver : Z;
  inuse : bool
}.

Definition set_head (h : Z) (md : LogMetadata) : LogMetadata :=
  {| id := id md; head := h; tail := tail md; ver := ver md; inuse := inuse md |}.
Definition set_tail (t : Z) (md : LogMetadata) : LogMetadata :=
  {| id := id md; head := head md; tail := t; ver := ver md; inuse := inuse md |}.
Definition set_ver (v : Z) (md : LogMetadata) : LogMetadata :=
  {| id := id md; head := head md; tail := tail md; ver := v; inuse := inuse md |}.
Definition set_inuse (b : bool) (md : LogMetadata) : LogMetadata :=
  {| id := id md; head := head md; tail := tail md; ver := ver md; inuse := b |}.

(** What the device was asked for; a ghost record of the calls of
    [read_entry] and [read_data]. *)
Inductive access : Type :=
| ReadEntry (idx : Z)
| ReadData (idx : Z).

(** Modelled from the spec: the part of the [PersistThreads] singleton
    that serves one log.  [PersistThreads] is missing from the sources;
    the spec describes an entry space holding the log entries by index, a
    data stream holding the payloads at the entries' [ofst], a root
    record that commits the metadata, and [last_written_ver]. *)
Record PersistThreads : Type := {
  entry_space : bytes;
  data_space : bytes;
  root : LogMetadata;
  last_written_ver : Z;
  accesses : list access
}.

(** One [SPDKPersistLog] object together with the device behind it. *)
Record SPDKPersistLog : Type := {
  m_currLogMetadata : LogMetadata;
  threads : PersistThreads
}.

(** The [derecho::derecho_exception]s the facade throws, named as the
    specification names them. *)
Inductive derecho_exception : Type :=
| VersionRegression  (* the version to append is smaller than the current version. *)
| LogFull            (* Ran out of log space. *)
| NotFound.          (* Failed to find the version. / Failed to find the hlc. *)

(** ** The monad of the facade: state, exceptions and fuel for loops *)

Inductive outcome (A : Type) : Type :=
| Ret (a : A)
| Throw (e : derecho_exception)
| OutOfFuel.
Arguments Ret {A} a.
Arguments Throw {A} e.
Arguments OutOfFuel {A}.

Definition M (A : Type) : Type := SPDKPersistLog -> outcome A * SPDKPersistLog.

Definition ret {A} (a : A) : M A := fun s => (Ret a, s).

Definition bind {A B} (m : M A) (k : A -> M B) : M B :=
  fun s =>
    match m s with
    | (Ret a, s') => k a s'
    | (Throw e, s') => (Throw e, s')
    | (OutOfFuel, s') => (OutOfFuel, s')
    end.

Definition throw {A} (e : derecho_exception) : M A := fun s => (Throw e, s).

Declare Scope log_scope.
Delimit Scope log_scope with log.
Notation "x <- m ;; k" := (bind m (fun x => k))
  (at level 61, m at next level, right associativity) : log_scope.
Notation "m ;;; k" := (bind m (fun _ => k))
  (at level 61, right associativity) : log_scope.
Local Open Scope log_scope.

(** The result of one turn of a loop body. *)
Inductive step (St : Type) : Type :=
| Continue (s : St)
| Break (s : St).
Arguments Continue {St} s.
Arguments Break {St} s.

(** A [while] loop over the local variables [St]; the body tests the
    condition itself and answers [Break] when the loop is left. *)
Fixpoint while {St : Type} (fuel : nat) (body : St -> M (step St)) (s : St)
  : M St :=
  match fuel with
  | O => fun l => (OutOfFuel, l)
  | S n =>
      r <- body s ;;
      match r with
      | Continue s' => while n body s'
      | Break s' => ret s'
      end
  end.

(** [METADATA], and assignments to its fields. *)
Definition METADATA : M LogMetadata := fun s => (Ret (m_currLogMetadata s), s).

Definition set_METADATA (f : LogMetadata -> LogMetadata) : M unit :=
  fun s =>
    (Ret tt, {| m_currLogMetadata := f (m_currLogMetadata s); threads := threads s |}).

Definition get_threads : M PersistThreads := fun s => (Ret (threads s), s).

Definition set_threads (f : PersistThreads -> PersistThreads) : M unit :=
  fun s =>
    (Ret tt, {| m_currLogMetadata := m_currLogMetadata s; threads := f (threads s) |}).

Definition log_access (a : access) (pt : PersistThreads) : PersistThreads :=
  {| entry_space := entry_space pt; data_space := data_space pt;
     root := root pt; last_written_ver := last_written_ver pt;
     accesses := accesses pt ++ [a] |}.

Definition with_entry_space (m : bytes) (pt : PersistThreads) : PersistThreads :=
  {| entry_space := m; data_space := data_space pt;
     root := root pt; last_written_ver := last_written_ver pt;
     accesses := accesses pt |}.

Definition with_data_space (m : bytes) (pt : PersistThreads) : PersistThreads :=
  {| entry_space := entry_space pt; data_space := m;
     root := root pt; last_written_ver := last_written_ver pt;
     accesses := accesses pt |}.

Definition commit (md : LogMetadata) (pt : PersistThreads) : PersistThreads :=
  {| entry_space := entry_space pt; data_space := data_space pt;
     root := md; last_written_ver := last_written_ver pt;
     accesses := accesses pt |}.

Definition written (v : Z) (pt : PersistThreads) : PersistThreads :=
  {| entry_space := entry_space pt; data_space := data_space pt;
     root := root pt; last_written_ver := v;
     accesses := accesses pt |}.

(** Reading and writing the fields of an entry through a pointer that
    [read_entry] returned. *)
Definition get_field (f : bytes -> Z -> Z) (p : Z) : M Z :=
  fun s => (Ret (f (entry_space (threads s)) p), s).

Definition set_field (off : Z) (p : Z) (v : Z) : M unit :=
  set_threads (fun pt => with_entry_space (store_64 (entry_space pt) (p + off) v) pt).

(** ** PersistThreads and the facade *)

Section Facade.

Variable cfg : Config.

(** *** The calls into [PersistThreads] *)

(** Modelled from the spec: [read_entry(id, idx)] returns a pointer to
    the [LogEntry] bytes for [idx].  Entry [idx] lives at byte
    [idx * sizeof(LogEntry)] of the entry space. *)
Definition read_entry (idx : Z) : M Z :=
  set_threads (log_access (ReadEntry idx)) ;;;
  ret (idx * sizeof_LogEntry cfg).

(** Modelled from the spec: [read_data(id, idx)] returns a pointer to the
    payload bytes for [idx], which start at the entry's [ofst] in the
    data stream. *)
Definition read_data (idx : Z) : M Z :=
  set_threads (log_access (ReadData idx)) ;;;
  get_field LogEntry.ofst (idx * sizeof_LogEntry cfg).

(** Modelled from the spec: [update_metadata(id, root)] commits the
    metadata. *)
Definition update_metadata : M unit :=
  md <- METADATA ;;
  set_threads (commit md).

(** Modelled from the spec:
    [append(id, payload, dlen, &entry, slot, root)] persists the payload
    ([dlen] bytes, at the entry's [ofst] in the data stream), the entry
    (into entry slot [slot]) and the root metadata, and updates
    [last_written_ver]. *)
Definition PersistThreads_append (mem : bytes) (pdata : Z) (dlen : Z)
           (entry : Z) (slot : Z) : M unit :=
  ofst <- get_field LogEntry.ofst entry ;;
  set_threads (fun pt =>
    with_data_space (std_copy mem pdata dlen (data_space pt) ofst) pt) ;;;
  set_threads (fun pt =>
    with_entry_space
      (std_copy (entry_space pt) entry (sizeof_LogEntry cfg)
                (entry_space pt) (slot * sizeof_LogEntry cfg))
      pt) ;;;
  md <- METADATA ;;
  set_threads (fun pt => written (ver md) (commit md pt)).

(** *** append and advanceVersion *)

(** [pdata] is the caller's memory seen from the pointer [pdata]. *)
Definition append (pdata : bytes) (size : Z) (ver_ : Z) (mhlc : HLC) : M unit :=
  md <- METADATA ;;
  if ver_ <=? ver md then throw VersionRegression else
  if u64 (Z.shiftr (u64 (sizeof_LogEntry cfg * tail md)) (SPDK_SEGMENT_BIT cfg)
          - Z.shiftr (u64 (sizeof_LogEntry cfg * head md)) (SPDK_SEGMENT_BIT cfg))
     >? u64 (SPDK_LOG_ENTRY_ADDRESS_TABLE_LENGTH cfg)
  then throw LogFull else
  next_log_entry <- read_entry (tail md) ;;
  set_field LogEntry.OFF_dlen next_log_entry size ;;;
  set_field LogEntry.OFF_ver next_log_entry ver_ ;;;
  set_field LogEntry.OFF_hlc_l next_log_entry (m_rtc_us mhlc) ;;;
  set_field LogEntry.OFF_hlc_l next_log_entry (m_logic mhlc) ;;;
  last_entry <- read_entry (tail md - 1) ;;
  (if tail md - head md =? 0
   then set_field LogEntry.OFF_ofst next_log_entry 0
   else
     o <- get_field LogEntry.ofst last_entry ;;
     d <- get_field LogEntry.dlen last_entry ;;
     set_field LogEntry.OFF_ofst next_log_entry (o + d)) ;;;
  set_METADATA (set_ver ver_) ;;;
  set_METADATA (fun m => set_tail (tail m + 1) m) ;;;
  md' <- METADATA ;;
  dlen <- get_field LogEntry.dlen next_log_entry ;;
  PersistThreads_append pdata 0 dlen next_log_entry
    (Z.rem (tail md' - 1) (SPDK_LOG_ADDRESS_SPACE cfg)).

Definition advanceVersion (ver_ : Z) : M unit :=
  md <- METADATA ;;
  if ver_ <=? ver md then throw VersionRegression else
  set_METADATA (set_ver ver_) ;;;
  update_metadata.

(** *** The metadata getters *)

Definition getLength : M Z :=
  md <- METADATA ;; ret (tail md - head md).

Definition getEarliestIndex : M Z :=
  md <- METADATA ;; ret (head md).

Definition getLatestIndex : M Z :=
  md <- METADATA ;; ret (tail md - 1).

Definition getLatestVersion : M Z :=
  md <- METADATA ;; ret (ver md).

Definition getEarliestVersion : M Z :=
  md <- METADATA ;;
  earliest_entry <- read_entry (head md) ;;
  get_field LogEntry.ver earliest_entry.

(** *** The searches *)

(** Local variables of the exact-match searches: [begin], [end], [res]. *)
Definition getVersionIndex (fuel : nat) (ver_ : Z) : M Z :=
  md <- METADATA ;;
  r <- while fuel (fun '(begin, end_, res) =>
         if begin <=? end_ then
           let mid := (begin + end_) ÷ 2 in
           mid_entry <- read_entry mid ;;
           curr_ver <- get_field LogEntry.ver mid_entry ;;
           if curr_ver =? ver_ then ret (Break (begin, end_, mid))
           else if curr_ver >? ver_ then ret (Continue (begin, mid - 1, res))
           else if curr_ver <? ver_ then ret (Continue (mid + 1, end_, res))
           else ret (Continue (begin, end_, res))
         else ret (Break (begin, end_, res)))
       (head md, tail md - 1, -1) ;;
  let '(_, _, res) := r in
  if res =? -1 then throw NotFound else ret res.

Definition getHLCIndex (fuel : nat) (hlc : HLC) : M Z :=
  md <- METADATA ;;
  r <- while fuel (fun '(begin, end_, res) =>
         if begin <=? end_ then
           let mid := s32 ((begin + end_) ÷ 2) in
           mid_entry <- read_entry mid ;;
           r1 <- get_field LogEntry.hlc_r mid_entry ;;
           if r1 =? m_rtc_us hlc then ret (Break (begin, end_, mid))
           else if negb ((r1 >? m_rtc_us hlc)
                         || ((r1 =? m_rtc_us hlc) && (r1 >? m_logic hlc)))
           then ret (Continue (mid + 1, end_, res))
           else ret (Continue (begin, mid - 1, res))
         else ret (Break (begin, end_, res)))
       (head md, tail md - 1, -1) ;;
  let '(_, _, res) := r in
  if res =? -1 then throw NotFound else ret res.

Definition upper_bound (fuel : nat) (ver_ : Z) : M Z :=
  md <- METADATA ;;
  r <- while fuel (fun '(begin, end_) =>
         if begin <? end_ then
           let mid := s32 ((begin + end_) ÷ 2) in
           mid_entry <- read_entry mid ;;
           curr_ver <- get_field LogEntry.ver mid_entry ;;
           if ver_ >=? curr_ver then ret (Continue (mid + 1, end_))
           else ret (Continue (begin, mid - 1))
         else ret (Break (begin, end_)))
       (head md, tail md - 1) ;;
  let '(begin, _) := r in
  e <- read_entry (begin - 1) ;;
  v <- get_field LogEntry.ver e ;;
  if v =? ver_ then ret (begin - 1) else ret begin.

Definition lower_bound (fuel : nat) (ver_ : Z) : M Z :=
  md <- METADATA ;;
  r <- while fuel (fun '(begin, end_) =>
         if begin <=? end_ then
           let mid := s32 ((begin + end_) ÷ 2) in
           mid_entry <- read_entry mid ;;
           curr_ver <- get_field LogEntry.ver mid_entry ;;
           if ver_ <=? curr_ver then ret (Continue (begin, mid - 1))
           else ret (Continue (mid + 1, end_))
         else ret (Break (begin, end_)))
       (head md, tail md - 1) ;;
  let '(_, end_) := r in
  e <- read_entry (end_ + 1) ;;
  v <- get_field LogEntry.ver e ;;
  if v =? ver_ then ret (end_ + 1) else ret end_.

Definition upper_bound_hlc (fuel : nat) (hlc : HLC) : M Z :=
  md <- METADATA ;;
  r <- while fuel (fun '(begin, end_) =>
         if begin <=? end_ then
           let mid := s32 ((begin + end_) ÷ 2) in
           mid_entry <- read_entry mid ;;
           r1 <- get_field LogEntry.hlc_r mid_entry ;;
           l1 <- get_field LogEntry.hlc_l mid_entry ;;
           if negb ((r1 >? m_rtc_us hlc)
                    || ((r1 =? m_rtc_us hlc) && (l1 >? m_logic hlc)))
           then ret (Continue (mid + 1, end_))
           else ret (Continue (begin, mid - 1))
         else ret (Break (begin, end_)))
       (head md, tail md - 1) ;;
  let '(begin, _) := r in
  e <- read_entry (begin - 1) ;;
  r1 <- get_field LogEntry.hlc_r e ;;
  if r1 =? m_rtc_us hlc then
    e' <- read_entry (begin - 1) ;;
    l1 <- get_field LogEntry.hlc_l e' ;;
    if l1 =? m_logic hlc then ret (begin - 1) else ret begin
  else ret begin.

Definition lower_bound_hlc (fuel : nat) (hlc : HLC) : M Z :=
  md <- METADATA ;;
  r <- while fuel (fun '(begin, end_) =>
         if begin <=? end_ then
           let mid := s32 ((begin + end_) ÷ 2) in
           mid_entry <- read_entry mid ;;
           r1 <- get_field LogEntry.hlc_r mid_entry ;;
           l1 <- get_field LogEntry.hlc_l mid_entry ;;
           if negb ((r1 <? m_rtc_us hlc)
                    || ((r1 =? m_rtc_us hlc) && (l1 <? m_logic hlc)))
           then ret (Continue (begin, mid - 1))
           else ret (Continue (mid + 1, end_))
         else ret (Break (begin, end_)))
       (head md, tail md - 1) ;;
  let '(_, end_) := r in
  e <- read_entry (end_ + 1) ;;
  r1 <- get_field LogEntry.hlc_r e ;;
  if r1 =? m_rtc_us hlc then
    e' <- read_entry (end_ + 1) ;;
    l1 <- get_field LogEntry.hlc_l e' ;;
    if l1 =? m_logic hlc then ret (end_ + 1) else ret end_
  else ret end_.

(** *** trim, getEntry *)

Definition trimByIndex (idx : Z) : M unit :=
  md <- METADATA ;;
  if (idx <? head md) || (idx >=? tail md) then ret tt else
  set_METADATA (set_head (idx + 1)) ;;;
  update_metadata.



(** The result is the pointer into the data space that [read_data]
    returned. *)
Definition getEntry (fuel : nat) (ver_ : Z) : M Z :=
  index <- lower_bound fuel ver_ ;;
  read_data index.

Definition getEntry_hlc (fuel : nat) (hlc : HLC) : M Z :=
  index <- lower_bound_hlc fuel hlc ;;
  read_data index.

Definition getEntryByIndex (eno : Z) : M Z := read_data eno.

(** *** Serialization *)

Definition bytes_size (fuel : nat) (ver_ : Z) : M Z :=
  index <- upper_bound fuel ver_ ;;
  let bsize := sizeof_int64 + sizeof_int64 in
  if negb (index =? INVALID_INDEX cfg) then
    r <- while fuel (fun '(index, bsize) =>
           md <- METADATA ;;
           if index <? tail md then
             log_entry <- read_entry index ;;
             d <- get_field LogEntry.dlen log_entry ;;
             ret (Continue (index + 1, u64 (bsize + sizeof_LogEntry cfg + d)))
           else ret (Break (index, bsize)))
         (index, bsize) ;;
    ret (snd r)
  else ret bsize.

(** [to_bytes(buf, ver)]: the result is the returned size and the
    contents of [buf] afterwards.  Both [std::copy] calls of the loop
    have the buffer as their source range and the entry, respectively
    its payload, as their destination. *)
Definition to_bytes (fuel : nat) (buf : bytes) (ver_ : Z) : M (Z * bytes) :=
  index <- upper_bound fuel ver_ ;;
  let ofst := 0 in
  md <- METADATA ;;
  let buf := store_64 buf ofst (ver md) in
  let ofst := ofst + sizeof_int64 in
  let buf :=
    store_64 buf ofst
      (if index =? INVALID_INDEX cfg then 0 else tail md - index) in
  let ofst := ofst + sizeof_int64 in
  if negb (index =? INVALID_INDEX cfg) then
    r <- while fuel (fun '(index, ofst) =>
           md <- METADATA ;;
           if index <? tail md then
             log_entry <- read_entry index ;;
             set_threads (fun pt =>
               with_entry_space
                 (std_copy buf ofst (sizeof_LogEntry cfg)
                           (entry_space pt) log_entry) pt) ;;;
             let ofst := u64 (ofst + sizeof_LogEntry cfg) in
             data <- read_data index ;;
             d <- get_field LogEntry.dlen log_entry ;;
             set_threads (fun pt =>
               with_data_space (std_copy buf ofst d (data_space pt) data) pt) ;;;
             let ofst := u64 (ofst + d) in
             ret (Continue (index + 1, ofst))
           else ret (Break (index, ofst)))
         (index, ofst) ;;
    ret (snd r, buf)
  else ret (ofst, buf).

(** [applyLogTail(v)]: the result is the contents of [v] afterwards,
    since the first [std::copy] has [log_entry], a pointer into [v], as
    its destination and [sizeof(LogEntry)] entries starting at
    [next_log_entry] as its source. *)
Definition applyLogTail (fuel : nat) (v : bytes) : M bytes :=
  let ofst := 0 in
  let latest_version := load_i64 v ofst in
  let ofst := ofst + sizeof_int64 in
  let nr_log_entry := load_i64 v ofst in
  let ofst := ofst + sizeof_int64 in
  r <- while fuel (fun '(nr_log_entry, ofst, v) =>
         if negb (nr_log_entry =? 0) then
           let nr_log_entry := nr_log_entry - 1 in
           let log_entry := ofst in
           let ofst := u64 (ofst + sizeof_LogEntry cfg) in
           md <- METADATA ;;
           if LogEntry.ver v log_entry <=? ver md then
             ret (Continue (nr_log_entry, u64 (ofst + LogEntry.dlen v log_entry), v))
           else
             let data := ofst in
             next_log_entry <- read_entry (tail md) ;;
             pt <- get_threads ;;
             let v :=
               std_copy (entry_space pt) next_log_entry
                        (sizeof_LogEntry cfg * sizeof_LogEntry cfg)
                        v log_entry in
             last_entry <- read_entry (tail md - 1) ;;
             (if tail md - head md =? 0
              then set_field LogEntry.OFF_ofst next_log_entry 0
              else
                o <- get_field LogEntry.ofst last_entry ;;
                d <- get_field LogEntry.dlen last_entry ;;
                set_field LogEntry.OFF_ofst next_log_entry (o + d)) ;;;
             set_METADATA (set_ver (LogEntry.ver v log_entry)) ;;;
             set_METADATA (fun m => set_tail (tail m + 1) m) ;;;
             md' <- METADATA ;;
             last_dlen <- get_field LogEntry.dlen last_entry ;;
             PersistThreads_append v data last_dlen next_log_entry (tail md' - 1) ;;;
             ret (Continue (nr_log_entry, u64 (ofst + LogEntry.dlen v log_entry), v))
         else ret (Break (nr_log_entry - 1, ofst, v)))
       (nr_log_entry, ofst, v) ;;
  ret (snd r).

(** *** truncate and zeroout *)

Definition truncate (fuel : nat) (ver_ : Z) : M unit :=
  index <- upper_bound fuel ver_ ;;
  set_METADATA (set_tail index) ;;;
  update_metadata.

Definition zeroout : M unit :=
  set_METADATA (set_head 0) ;;;
  set_METADATA (set_tail 0) ;;;
  set_METADATA (set_inuse false) ;;;
  update_metadata.

End Facade.

(** ** Reading a log state *)

(** The fields of the entry at index [idx], as [read_entry] finds them. *)
Definition entry_ver (cfg : Config) (s : SPDKPersistLog) (idx : Z) : Z :=
  LogEntry.ver (entry_space (threads s)) (idx * sizeof_LogEntry cfg).
Definition entry_hlc_r (cfg : Config) (s : SPDKPersistLog) (idx : Z) : Z :=
  LogEntry.hlc_r (entry_space (threads s)) (idx * sizeof_LogEntry cfg).
Definition entry_hlc_l (cfg : Config) (s : SPDKPersistLog) (idx : Z) : Z :=
  LogEntry.hlc_l (entry_space (threads s)) (idx * sizeof_LogEntry cfg).
Definition entry_dlen (cfg : Config) (s : SPDKPersistLog) (idx : Z) : Z :=
  LogEntry.dlen (entry_space (threads s)) (idx * sizeof_LogEntry cfg).
Definition entry_ofst (cfg : Config) (s : SPDKPersistLog) (idx : Z) : Z :=
  LogEntry.ofst (entry_space (threads s)) (idx * sizeof_LogEntry cfg).

(** The payload of the entry at [idx]: [dlen] bytes of the data stream
    from the entry's [ofst]. *)
Definition entry_payload (cfg : Config) (s : SPDKPersistLog) (idx : Z) : list byte :=
  load_bytes (data_space (threads s)) (entry_ofst cfg s idx)
             (Z.to_nat (entry_dlen cfg s idx)).

(** The state an operation leaves, and its outcome. *)
Definition exec {A : Type} (m : M A) (s : SPDKPersistLog) : SPDKPersistLog := snd (m s).
Definition result {A : Type} (m : M A) (s : SPDKPersistLog) : outcome A := fst (m s).

(** A log whose entries 0, 1, 2 carry the versions 1, 2, 3, as after
    scenario 1, whatever else the device holds. *)
Definition holds_scenario1 (cfg : Config) (s : SPDKPersistLog) : Prop :=
  head (m_currLogMetadata s) = 0 /\ tail (m_currLogMetadata s) = 3 /\
  entry_ver cfg s 0 = 1 /\ entry_ver cfg s 1 = 2 /\ entry_ver cfg s 2 = 3.

(** Modelled from the spec: the number of entries one segment holds,
    [SEGMENT_SIZE / sizeof(LogEntry)], which the sources do not name. *)
Definition ENTRIES_PER_SEGMENT (cfg : Config) : Z :=
  2 ^ SPDK_SEGMENT_BIT cfg / sizeof_LogEntry cfg.

(** The constants fit their use: a segment holds a whole number of
    entries and the address table has a length. *)
Definition config_ok (cfg : Config) : Prop :=
  0 < sizeof_LogEntry cfg /\
  0 <= SPDK_SEGMENT_BIT cfg /\
  2 ^ SPDK_SEGMENT_BIT cfg mod sizeof_LogEntry cfg = 0 /\
  0 <= SPDK_LOG_ENTRY_ADDRESS_TABLE_LENGTH cfg < 2 ^ 64.

(** ** A configuration and the logs of the scenarios *)

Module Scenario.

(** Values for the missing constants, used to run the examples. *)
Definition sample : Config :=
  {| sizeof_LogEntry := 64;
     SPDK_SEGMENT_BIT := 26;
     SPDK_LOG_ENTRY_ADDRESS_TABLE_LENGTH := 2 ^ 11;
     SPDK_LOG_ADDRESS_SPACE := 2 ^ 37;
     INVALID_INDEX := 2 ^ 63 - 1 |}.

Definition fresh_metadata : LogMetadata :=
  {| id := 0; head := 0; tail := 0; ver := 0; inuse := true |}.

(** A log just created on a zeroed device. *)
Definition fresh : SPDKPersistLog :=
  {| m_currLogMetadata := fresh_metadata;
     threads := {| entry_space := zeroed; data_space := zeroed;
                   root := fresh_metadata; last_written_ver := 0;
                   accesses := [] |} |}.

Definition hlc (r l : Z) : HLC := {| m_rtc_us := r; m_logic := l |}.

(** Scenario 1: three appends, ["a"], ["bb"] and ["ccc"]. *)
Definition scenario1 : SPDKPersistLog :=
  exec (append sample (of_list [Byte.x63; Byte.x63; Byte.x63]) 3 3 (hlc 102 0))
    (exec (append sample (of_list [Byte.x62; Byte.x62]) 2 2 (hlc 101 0))
       (exec (append sample (of_list [Byte.x61]) 1 1 (hlc 100 0)) fresh)).

(** A log at the capacity of its address table: [head = 0] and
    [tail = LENGTH * ENTRIES_PER_SEGMENT]. *)
Definition at_capacity : SPDKPersistLog :=
  {| m_currLogMetadata :=
       {| id := 0; head := 0; tail := 2 ^ 11 * 2 ^ 20; ver := 7; inuse := true |};
     threads := threads fresh |}.

(** A log loaded from a device that holds two entries, versions 1 and 2,
    with the clocks (100, 0) and (100, 1). *)
Definition same_rtc_entries : bytes :=
  store_64 (store_64 (store_64 (store_64 (store_64 zeroed
    (0 * 64 + LogEntry.OFF_ver) 1)
    (0 * 64 + LogEntry.OFF_hlc_r) 100)
    (1 * 64 + LogEntry.OFF_ver) 2)
    (1 * 64 + LogEntry.OFF_hlc_r) 100)
    (1 * 64 + LogEntry.OFF_hlc_l) 1.

Definition same_rtc : SPDKPersistLog :=
  let md := {| id := 0; head := 0; tail := 2; ver := 2; inuse := true |} in
  {| m_currLogMetadata := md;
     threads := {| entry_space := same_rtc_entries; data_space := zeroed;
                   root := md; last_written_ver := 2; accesses := [] |} |}.

(** State transfer of scenario 1: the sender serializes its whole log
    into a zeroed buffer, [to_bytes(buf, -1)], and a fresh log applies
    the bytes. *)
Definition sent : outcome (Z * bytes) :=
  result (to_bytes sample 8 zeroed (-1)) scenario1.

Definition sent_size : Z :=
  match sent with Ret (n, _) => n | _ => -1 end.

Definition sent_bytes : bytes :=
  match sent with Ret (_, b) => b | _ => zeroed end.

Definition sender_after : SPDKPersistLog :=
  exec (to_bytes sample 8 zeroed (-1)) scenario1.

Definition receiver_after : SPDKPersistLog :=
  exec (applyLogTail sample 8 sent_bytes) fresh.

(** Two appends with increasing versions and clocks (100, 5), (101, 0). *)
Definition two_clocks : SPDKPersistLog :=
  exec (append sample (of_list [Byte.x62; Byte.x62]) 2 2 (hlc 101 0))
    (exec (append sample (of_list [Byte.x61]) 1 1 (hlc 100 5)) fresh).

End Scenario.

(** ** Invariants and frames *)

(** Index [i] is live: it lies in [head, tail). *)
Definition live (s : SPDKPersistLog) (i : Z) : Prop :=
  head (m_currLogMetadata s) <= i < tail (m_currLogMetadata s).

(** The versions of the live entries increase strictly with the index. *)
Definition versions_sorted (cfg : Config) (s : SPDKPersistLog) : Prop :=
  forall i j, live s i -> live s j -> i < j -> entry_ver cfg s i < entry_ver cfg s j.

(** No live entry is newer than metadata.ver. *)
Definition versions_bounded (cfg : Config) (s : SPDKPersistLog) : Prop :=
  forall i, live s i -> entry_ver cfg s i <= ver (m_currLogMetadata s).






(** [s'] is [s] after some calls of [read_entry], each at an index that
    satisfies [P]; nothing else differs. *)
Definition only_reads (P : Z -> Prop) (s s' : SPDKPersistLog) : Prop :=
  m_currLogMetadata s' = m_currLogMetadata s /\
  entry_space (threads s') = entry_space (threads s) /\
  data_space (threads s') = data_space (threads s) /\
  root (threads s') = root (threads s) /\
  last_written_ver (threads s') = last_written_ver (threads s) /\
  exists tr, accesses (threads s') = accesses (threads s) ++ tr /\
             Forall (fun a => exists idx, a = ReadEntry idx /\ P idx) tr.

(** The state after one call of [read_entry]. *)
Definition touch (a : access) (s : SPDKPersistLog) : SPDKPersistLog :=
  {| m_currLogMetadata := m_currLogMetadata s;
     threads := log_access a (threads s) |}.

(** The [n] records that applyLogTail meets from offset [ofst] of [v]
    on, each followed by its [dlen] payload bytes, all carry a version
    [<= ver_]. *)
Fixpoint stale_records (cfg : Config) (v : bytes) (ver_ : Z) (n : nat) (ofst : Z)
  : Prop :=
  match n with
  | O => True
  | S n' =>
      LogEntry.ver v ofst <= ver_ /\
      stale_records cfg v ver_ n'
        (u64 (u64 (ofst + sizeof_LogEntry cfg) + LogEntry.dlen v ofst))
  end.

(** ** Tactics *)

(** Symbolic execution of the facade: unfold the monad, reduce what is
    known, and evaluate the narrowing of closed midpoints. *)
Ltac unfold_monad :=
  unfold bind, METADATA, read_entry, read_data, get_field, set_field,
         set_threads, get_threads, set_METADATA, update_metadata, ret, throw.

Ltac closed_positive p :=
  lazymatch p with
  | xH => idtac
  | xO ?q => closed_positive q
  | xI ?q => closed_positive q
  end.

Ltac closed_Z z :=
  lazymatch z with
  | Z0 => idtac
  | Zpos ?p => closed_positive p
  | Zneg ?p => closed_positive p
  | ?a + ?b => closed_Z a; closed_Z b
  | ?a - ?b => closed_Z a; closed_Z b
  | ?a ÷ ?b => closed_Z a; closed_Z b
  end.

Ltac closed_midpoints :=
  repeat match goal with
  | |- context [s32 ?z] =>
      closed_Z z;
      let v := eval vm_compute in (s32 z) in
      change (s32 z) with v
  end.

Ltac run_facade :=
  repeat (unfold_monad;
          cbn -[LogEntry.ver LogEntry.hlc_r LogEntry.hlc_l LogEntry.dlen
                LogEntry.ofst Z.mul s32 u64 store_64 std_copy];
          closed_midpoints).

(** One turn of a loop body: unfold what the body calls and reduce the
    projections of the state. *)
Ltac run_body :=
  do 3 unfold_monad;
  cbn [fst snd threads entry_space data_space m_currLogMetadata log_access].

(** The versions of the log of scenario 1 increase: a case analysis on
    the three live indices. *)
Ltac scenario1_sorted :=
  let i := fresh "i" in let j := fresh "j" in
  let Hi := fresh "Hi" in let Hj := fresh "Hj" in let Hij := fresh "Hij" in
  intros i j Hi Hj Hij; unfold live in Hi, Hj;
  change (head (m_currLogMetadata Scenario.scenario1)) with 0 in Hi, Hj;
  change (tail (m_currLogMetadata Scenario.scenario1)) with 3 in Hi, Hj;
  assert (i = 0 \/ i = 1 \/ i = 2) as [-> | [-> | ->]] by lia;
  assert (j = 0 \/ j = 1 \/ j = 2) as [-> | [-> | ->]] by lia;
  try lia; vm_compute; reflexivity.

Ltac scenario1_bounded :=
  let i := fresh "i" in let Hi := fresh "Hi" in
  intros i Hi; unfold live in Hi;
  change (head (m_currLogMetadata Scenario.scenario1)) with 0 in Hi;
  change (tail (m_currLogMetadata Scenario.scenario1)) with 3 in Hi;
  assert (i = 0 \/ i = 1 \/ i = 2) as [-> | [-> | ->]] by lia;
  vm_compute; discriminate.


(** * Properties *)

(** ** Integers and byte memories *)

Lemma s64_u64 (z : Z) : int64_range z -> s64 (z mod 2 ^ 64) = z.
Proof.
  unfold int64_range, s64. intros H.
  rewrite Z.add_mod_idemp_l by lia.
  rewrite Z.mod_small; lia.
Qed.

Lemma length_load_bytes (m : bytes) (a : Z) (n : nat) :
  length (load_bytes m a n) = n.
Proof. unfold load_bytes. now rewrite length_map, length_seq. Qed.

Lemma load_bytes_store_bytes_same (m : bytes) (a : Z) (bs : list byte) :
  load_bytes (store_bytes m a bs) a (length bs) = bs.
Proof.
  apply nth_ext with (d := Byte.x00) (d' := Byte.x00).
  - apply length_load_bytes.
  - intros n Hn. rewrite length_load_bytes in Hn.
    unfold load_bytes.
    rewrite nth_indep with (d' := store_bytes m a bs (a + Z.of_nat 0))
      by (rewrite length_map, length_seq; exact Hn).
    rewrite (map_nth (fun k => store_bytes m a bs (a + Z.of_nat k))).
    rewrite seq_nth by exact Hn. simpl Nat.add.
    unfold store_bytes.
    replace (a + Z.of_nat n - a) with (Z.of_nat n) by lia.
    rewrite Nat2Z.id.
    destruct (Z.leb_spec a (a + Z.of_nat n)); [|lia].
    destruct (Z.ltb_spec (a + Z.of_nat n) (a + Z.of_nat (length bs))); [|lia].
    reflexivity.
Qed.

Lemma store_bytes_outside (m : bytes) (a : Z) (bs : list byte) (x : Z) :
  x < a \/ a + Z.of_nat (length bs) <= x -> store_bytes m a bs x = m x.
Proof.
  intros H. unfold store_bytes.
  destruct (Z.leb_spec a x); destruct (Z.ltb_spec x (a + Z.of_nat (length bs)));
    simpl; try reflexivity; lia.
Qed.

Lemma load_bytes_store_bytes_other (m : bytes) (a b : Z) (bs : list byte) (n : nat) :
  b + Z.of_nat n <= a \/ a + Z.of_nat (length bs) <= b ->
  load_bytes (store_bytes m a bs) b n = load_bytes m b n.
Proof.
  intros H. unfold load_bytes. apply map_ext_in.
  intros k Hk. apply in_seq in Hk.
  apply store_bytes_outside. lia.
Qed.

Lemma load_i64_store_64_same (m : bytes) (a v : Z) :
  int64_range v -> load_i64 (store_64 m a v) a = v.
Proof.
  intros H. unfold load_i64, load_u64, store_64.
  change 8%nat with (length (le_split 8 v)) at 1.
  rewrite load_bytes_store_bytes_same, le_combine_split.
  apply s64_u64, H.
Qed.

Lemma load_i64_store_64_other (m : bytes) (a b v : Z) :
  b + 8 <= a \/ a + 8 <= b ->
  load_i64 (store_64 m a v) b = load_i64 m b.
Proof.
  intros H. unfold load_i64, load_u64, store_64.
  rewrite load_bytes_store_bytes_other; [reflexivity|].
  rewrite length_le_split. lia.
Qed.

Lemma store_64_outside (m : bytes) (a v x : Z) :
  x < a \/ a + 8 <= x -> store_64 m a v x = m x.
Proof.
  intros H. unfold store_64. apply store_bytes_outside.
  rewrite length_le_split. lia.
Qed.

Lemma load_bytes_ext (m m' : bytes) (a : Z) (n : nat) :
  (forall x, a <= x < a + Z.of_nat n -> m x = m' x) ->
  load_bytes m a n = load_bytes m' a n.
Proof.
  intros H. unfold load_bytes. apply map_ext_in.
  intros k Hk. apply in_seq in Hk. apply H. lia.
Qed.

Lemma load_u64_store_64_same (m : bytes) (a v : Z) :
  load_u64 (store_64 m a v) a = u64 v.
Proof.
  unfold load_u64, store_64.
  change 8%nat with (length (le_split 8 v)) at 1.
  rewrite load_bytes_store_bytes_same, le_combine_split. reflexivity.
Qed.

Lemma load_u64_store_64_other (m : bytes) (a b v : Z) :
  b + 8 <= a \/ a + 8 <= b ->
  load_u64 (store_64 m a v) b = load_u64 m b.
Proof.
  intros H. unfold load_u64, store_64.
  rewrite load_bytes_store_bytes_other; [reflexivity|].
  rewrite length_le_split. lia.
Qed.

(** Copying a range onto itself changes nothing. *)
Lemma std_copy_self (m : bytes) (a n x : Z) : std_copy m a n m a x = m x.
Proof.
  unfold std_copy.
  destruct ((a <=? x) && (x <? a + n)); [f_equal; lia | reflexivity].
Qed.

Lemma load_u64_std_copy_self (m : bytes) (a n b : Z) :
  load_u64 (std_copy m a n m a) b = load_u64 m b.
Proof.
  unfold load_u64. f_equal. apply load_bytes_ext.
  intros x _. apply std_copy_self.
Qed.

(** ** Loops *)

(** More fuel does not change what a loop that finished has done. *)
Lemma while_fuel_mono {St : Type} (body : St -> M (step St)) :
  forall (n m : nat) (s : St) (l l' : SPDKPersistLog) (r : outcome St),
    while n body s l = (r, l') -> r <> OutOfFuel -> (n <= m)%nat ->
    while m body s l = (r, l').
Proof.
  induction n as [|n IH]; intros m s l l' r Hrun Hr Hle.
  - simpl in Hrun. inversion Hrun; subst. congruence.
  - destruct m as [|m]; [lia|].
    simpl in Hrun |- *. unfold bind in Hrun |- *.
    destruct (body s l) as [[[s1|s1]|e|] l1]; try exact Hrun.
    apply IH; [exact Hrun | exact Hr | lia].
Qed.

(** ** The version guard of append and advanceVersion *)

Lemma append_regression (cfg : Config) (s : SPDKPersistLog)
      (pdata : bytes) (size ver_ : Z) (mhlc : HLC) :
  ver_ <= ver (m_currLogMetadata s) ->
  append cfg pdata size ver_ mhlc s = (Throw VersionRegression, s).
Proof.
  intros H. unfold append, bind, METADATA, throw.
  destruct (Z.leb_spec ver_ (ver (m_currLogMetadata s))); [reflexivity | lia].
Qed.

(** What append does once the version guard is passed: it throws
    [LogFull] when the segment check fires and returns otherwise. *)
Lemma append_fresh_version (cfg : Config) (s : SPDKPersistLog)
      (pdata : bytes) (size ver_ : Z) (mhlc : HLC) :
  ver (m_currLogMetadata s) < ver_ ->
  let md := m_currLogMetadata s in
  let full :=
    u64 (Z.shiftr (u64 (sizeof_LogEntry cfg * tail md)) (SPDK_SEGMENT_BIT cfg)
         - Z.shiftr (u64 (sizeof_LogEntry cfg * head md)) (SPDK_SEGMENT_BIT cfg))
    >? u64 (SPDK_LOG_ENTRY_ADDRESS_TABLE_LENGTH cfg) in
  (full = true /\ append cfg pdata size ver_ mhlc s = (Throw LogFull, s)) \/
  (full = false /\
   result (append cfg pdata size ver_ mhlc) s = Ret tt /\
   let md' := m_currLogMetadata (exec (append cfg pdata size ver_ mhlc) s) in
   head md' = head md /\ tail md' = tail md + 1 /\ ver md' = ver_ /\
   inuse md' = inuse md /\
   root (threads (exec (append cfg pdata size ver_ mhlc) s)) = md').
Proof.
  intros H md full. unfold result, exec, append, bind, METADATA, throw.
  destruct (Z.leb_spec ver_ (ver (m_currLogMetadata s))); [lia|].
  fold md. fold full. destruct full.
  - left. split; reflexivity.
  - right. split; [reflexivity|].
    destruct (tail md - head md =? 0); simpl; repeat split; reflexivity.
Qed.

(** C2. Called with [ver <= metadata.ver], append and advanceVersion raise
    VersionRegression and leave the whole state, hence head, tail,
    metadata.ver and every stored entry, as it was; called with
    [ver > metadata.ver], neither raises VersionRegression. *)
Theorem version_regression_guard (cfg : Config) (s : SPDKPersistLog)
        (pdata : bytes) (size ver_ : Z) (mhlc : HLC) :
  (ver_ <= ver (m_currLogMetadata s) ->
   append cfg pdata size ver_ mhlc s = (Throw VersionRegression, s) /\
   advanceVersion ver_ s = (Throw VersionRegression, s)) /\
  (ver (m_currLogMetadata s) < ver_ ->
   result (append cfg pdata size ver_ mhlc) s <> Throw VersionRegression /\
   result (advanceVersion ver_) s <> Throw VersionRegression).
Proof.
  split; intros H.
  - split; [apply append_regression, H|].
    unfold advanceVersion, bind, METADATA, throw.
    destruct (Z.leb_spec ver_ (ver (m_currLogMetadata s))); [reflexivity | lia].
  - split.
    + destruct (append_fresh_version cfg s pdata size ver_ mhlc H)
        as [[_ E] | [_ [E _]]].
      * unfold result. rewrite E. simpl. discriminate.
      * rewrite E. discriminate.
    + unfold result, advanceVersion, bind, METADATA, throw.
      destruct (Z.leb_spec ver_ (ver (m_currLogMetadata s))); [lia|].
      simpl. discriminate.
Qed.

Lemma version_regression_guard_witness :
  (append Scenario.sample zeroed 1 2 (Scenario.hlc 103 0) Scenario.scenario1
   = (Throw VersionRegression, Scenario.scenario1) /\
   advanceVersion 2 Scenario.scenario1
   = (Throw VersionRegression, Scenario.scenario1)) /\
  (result (append Scenario.sample zeroed 1 4 (Scenario.hlc 103 0)) Scenario.scenario1
   <> Throw VersionRegression /\
   result (advanceVersion 4) Scenario.scenario1 <> Throw VersionRegression).
Proof.
  split.
  - apply (version_regression_guard Scenario.sample Scenario.scenario1
             zeroed 1 2 (Scenario.hlc 103 0)).
    vm_compute. discriminate.
  - apply (version_regression_guard Scenario.sample Scenario.scenario1
             zeroed 1 4 (Scenario.hlc 103 0)).
    vm_compute. reflexivity.
Defined.

(** ** zeroout *)

Lemma zeroout_state (s : SPDKPersistLog) :
  let md := {| id := id (m_currLogMetadata s); head := 0; tail := 0;
               ver := ver (m_currLogMetadata s); inuse := false |} in
  zeroout s = (Ret tt, {| m_currLogMetadata := md; threads := commit md (threads s) |}).
Proof. reflexivity. Qed.

(** C10. zeroout sets head = 0, tail = 0 and inuse = false, commits the
    metadata and keeps metadata.ver (and the device contents); so an
    append right after zeroout is accepted only if its version exceeds
    the metadata.ver from before the zeroout. *)
Theorem zeroout_keeps_version (cfg : Config) (s : SPDKPersistLog)
        (pdata : bytes) (size ver_ : Z) (mhlc : HLC) :
  let s' := exec zeroout s in
  result zeroout s = Ret tt /\
  head (m_currLogMetadata s') = 0 /\
  tail (m_currLogMetadata s') = 0 /\
  inuse (m_currLogMetadata s') = false /\
  root (threads s') = m_currLogMetadata s' /\
  ver (m_currLogMetadata s') = ver (m_currLogMetadata s) /\
  id (m_currLogMetadata s') = id (m_currLogMetadata s) /\
  entry_space (threads s') = entry_space (threads s) /\
  data_space (threads s') = data_space (threads s) /\
  (result (append cfg pdata size ver_ mhlc) s' = Ret tt ->
   ver (m_currLogMetadata s) < ver_).
Proof.
  intros s'. unfold s', exec, result. rewrite zeroout_state. simpl.
  repeat (split; [reflexivity|]).
  intros Happ.
  destruct (Z.le_gt_cases ver_ (ver (m_currLogMetadata s))) as [Hle|Hgt]; [|lia].
  rewrite append_regression in Happ by exact Hle.
  discriminate Happ.
Qed.

Lemma zeroout_keeps_version_witness :
  result (append Scenario.sample zeroed 1 4 (Scenario.hlc 103 0))
         (exec zeroout Scenario.scenario1) = Ret tt /\
  ver (m_currLogMetadata Scenario.scenario1) < 4.
Proof.
  split; [vm_compute; reflexivity|].
  apply (zeroout_keeps_version Scenario.sample Scenario.scenario1
           zeroed 1 4 (Scenario.hlc 103 0)).
  vm_compute. reflexivity.
Defined.

(** C4 (as amended). On a log whose metadata.ver is below 1, zeroout
    followed by append with ver = 1 succeeds and leaves head = 0 and
    tail = 1; on any other log the append raises VersionRegression,
    because zeroout keeps metadata.ver. *)
Theorem zeroout_then_append_one (cfg : Config) (s : SPDKPersistLog)
        (pdata : bytes) (size : Z) (mhlc : HLC) :
  let s' := exec zeroout s in
  let s'' := exec (append cfg pdata size 1 mhlc) s' in
  (ver (m_currLogMetadata s) < 1 ->
   result (append cfg pdata size 1 mhlc) s' = Ret tt /\
   head (m_currLogMetadata s'') = 0 /\ tail (m_currLogMetadata s'') = 1) /\
  (1 <= ver (m_currLogMetadata s) ->
   append cfg pdata size 1 mhlc s' = (Throw VersionRegression, s')).
Proof.
  intros s' s''. split; intros Hver.
  - assert (Hv' : ver (m_currLogMetadata s') < 1) by exact Hver.
    destruct (append_fresh_version cfg s' pdata size 1 mhlc Hv')
      as [[Hfull _] | [_ [Hret Hmd]]].
    + exfalso. revert Hfull. unfold s', exec. rewrite zeroout_state. simpl.
      rewrite Z.mul_0_r. change (u64 0) with 0.
      rewrite Z.shiftr_0_l. change (u64 (0 - 0)) with 0.
      pose proof (Z.mod_pos_bound (SPDK_LOG_ENTRY_ADDRESS_TABLE_LENGTH cfg) (2 ^ 64)
                    ltac:(lia)) as Hlen.
      fold (u64 (SPDK_LOG_ENTRY_ADDRESS_TABLE_LENGTH cfg)) in Hlen.
      destruct (Z.gtb_spec 0 (u64 (SPDK_LOG_ENTRY_ADDRESS_TABLE_LENGTH cfg)));
        [lia | discriminate].
    + split; [exact Hret|].
      destruct Hmd as (Hh & Ht & _). fold s'' in Hh, Ht.
      rewrite Hh, Ht. split; reflexivity.
  - apply append_regression. exact Hver.
Qed.

Lemma zeroout_then_append_one_witness :
  result (append Scenario.sample (of_list [Byte.x61]) 1 1 (Scenario.hlc 100 0))
         (exec zeroout Scenario.fresh) = Ret tt /\
  head (m_currLogMetadata
          (exec (append Scenario.sample (of_list [Byte.x61]) 1 1 (Scenario.hlc 100 0))
                (exec zeroout Scenario.fresh))) = 0 /\
  tail (m_currLogMetadata
          (exec (append Scenario.sample (of_list [Byte.x61]) 1 1 (Scenario.hlc 100 0))
                (exec zeroout Scenario.fresh))) = 1.
Proof.
  apply (zeroout_then_append_one Scenario.sample Scenario.fresh
           (of_list [Byte.x61]) 1 (Scenario.hlc 100 0)).
  vm_compute. reflexivity.
Defined.

(** C4, the claim as written, fails: after the three appends of
    scenario 1 metadata.ver is 3, zeroout keeps it, and append with
    ver = 1 raises VersionRegression. *)
Lemma zeroout_then_append_one_counterexample :
  result (append Scenario.sample (of_list [Byte.x61]) 1 1 (Scenario.hlc 100 0))
         (exec zeroout Scenario.scenario1) = Throw VersionRegression /\
  tail (m_currLogMetadata
          (exec (append Scenario.sample (of_list [Byte.x61]) 1 1 (Scenario.hlc 100 0))
                (exec zeroout Scenario.scenario1))) <> 1.
Proof. vm_compute. split; [reflexivity | discriminate]. Qed.

(** ** The segment check of append *)

Lemma entries_per_segment (cfg : Config) :
  config_ok cfg ->
  0 < ENTRIES_PER_SEGMENT cfg /\
  2 ^ SPDK_SEGMENT_BIT cfg = sizeof_LogEntry cfg * ENTRIES_PER_SEGMENT cfg.
Proof.
  intros (Hs & Hb & Hm & _). unfold ENTRIES_PER_SEGMENT.
  assert (Hp : 0 < 2 ^ SPDK_SEGMENT_BIT cfg) by (apply Z.pow_pos_nonneg; lia).
  assert (He : 2 ^ SPDK_SEGMENT_BIT cfg
               = sizeof_LogEntry cfg * (2 ^ SPDK_SEGMENT_BIT cfg / sizeof_LogEntry cfg)).
  { apply Z.div_exact; lia. }
  split; [|exact He].
  destruct (Z.lt_trichotomy 0 (2 ^ SPDK_SEGMENT_BIT cfg / sizeof_LogEntry cfg))
    as [Hlt|[Heq|Hgt]]; [exact Hlt | |]; nia.
Qed.

(** The byte offset of entry [idx] lies in segment [idx / ENTRIES_PER_SEGMENT]. *)
Lemma segment_of_index (cfg : Config) (idx : Z) :
  config_ok cfg -> 0 <= idx -> sizeof_LogEntry cfg * idx < 2 ^ 64 ->
  Z.shiftr (u64 (sizeof_LogEntry cfg * idx)) (SPDK_SEGMENT_BIT cfg)
  = idx / ENTRIES_PER_SEGMENT cfg.
Proof.
  intros Hok Hidx Hlt.
  destruct (entries_per_segment cfg Hok) as [Hpos Heq].
  destruct Hok as (Hs & Hb & _).
  unfold u64. rewrite Z.mod_small by nia.
  rewrite Z.shiftr_div_pow2 by exact Hb.
  rewrite Heq. apply Z.div_mul_cancel_l; lia.
Qed.

(** The guard of append compares segment numbers. *)
Lemma segment_check (cfg : Config) (h t : Z) :
  config_ok cfg -> 0 <= h <= t -> sizeof_LogEntry cfg * t < 2 ^ 64 ->
  (u64 (Z.shiftr (u64 (sizeof_LogEntry cfg * t)) (SPDK_SEGMENT_BIT cfg)
        - Z.shiftr (u64 (sizeof_LogEntry cfg * h)) (SPDK_SEGMENT_BIT cfg))
   >? u64 (SPDK_LOG_ENTRY_ADDRESS_TABLE_LENGTH cfg)) = true
  <-> t / ENTRIES_PER_SEGMENT cfg - h / ENTRIES_PER_SEGMENT cfg
      > SPDK_LOG_ENTRY_ADDRESS_TABLE_LENGTH cfg.
Proof.
  intros Hok Hht Hlt.
  destruct (entries_per_segment cfg Hok) as [Hpos Heq].
  assert (Hs : 0 < sizeof_LogEntry cfg) by apply Hok.
  rewrite !segment_of_index by (try exact Hok; nia).
  assert (H1 : h / ENTRIES_PER_SEGMENT cfg <= t / ENTRIES_PER_SEGMENT cfg)
    by (apply Z.div_le_mono; lia).
  assert (H2 : t / ENTRIES_PER_SEGMENT cfg <= t)
    by (apply Z.div_le_upper_bound; nia).
  assert (H3 : 0 <= h / ENTRIES_PER_SEGMENT cfg)
    by (apply Z.div_pos; lia).
  assert (H4 : 0 <= SPDK_LOG_ENTRY_ADDRESS_TABLE_LENGTH cfg < 2 ^ 64) by apply Hok.
  unfold u64. rewrite !Z.mod_small by nia.
  rewrite Z.gtb_gt. reflexivity.
Qed.

(** C9 (as amended). On a log with [0 <= head <= tail], append with a
    fresh version raises LogFull exactly when the segment of entry [tail]
    lies more than LOG_ENTRY_ADDRESS_TABLE_LENGTH segments after the
    segment of entry [head]; while [tail - head + 1] stays within
    LOG_ENTRY_ADDRESS_TABLE_LENGTH * ENTRIES_PER_SEGMENT it never raises
    LogFull, and a successful append leaves [tail - head] within
    (LOG_ENTRY_ADDRESS_TABLE_LENGTH + 1) * ENTRIES_PER_SEGMENT. *)
Theorem append_log_full (cfg : Config) (s : SPDKPersistLog)
        (pdata : bytes) (size ver_ : Z) (mhlc : HLC) :
  config_ok cfg ->
  let md := m_currLogMetadata s in
  let md' := m_currLogMetadata (exec (append cfg pdata size ver_ mhlc) s) in
  let per_segment := ENTRIES_PER_SEGMENT cfg in
  let length := SPDK_LOG_ENTRY_ADDRESS_TABLE_LENGTH cfg in
  0 <= head md <= tail md ->
  sizeof_LogEntry cfg * tail md < 2 ^ 64 ->
  ver md < ver_ ->
  (result (append cfg pdata size ver_ mhlc) s = Throw LogFull
   <-> tail md / per_segment - head md / per_segment > length) /\
  (tail md - head md + 1 <= length * per_segment ->
   result (append cfg pdata size ver_ mhlc) s = Ret tt) /\
  (result (append cfg pdata size ver_ mhlc) s = Ret tt ->
   tail md' - head md' <= (length + 1) * per_segment).
Proof.
  intros Hok md md' per_segment length Hht Hlt Hver.
  destruct (entries_per_segment cfg Hok) as [Hpos _]. fold per_segment in Hpos.
  pose proof (segment_check cfg (head md) (tail md) Hok Hht Hlt) as Hchk.
  fold per_segment length in Hchk.
  assert (Hdiv : tail md - head md + 1 <= length * per_segment ->
                 tail md / per_segment - head md / per_segment <= length).
  { intros Hb.
    assert (tail md / per_segment <= (head md + length * per_segment) / per_segment)
      by (apply Z.div_le_mono; lia).
    rewrite Z.div_add in H by lia. lia. }
  assert (Hspan : tail md / per_segment - head md / per_segment <= length ->
                  tail md + 1 - head md <= (length + 1) * per_segment).
  { intros Hb.
    pose proof (Z.mul_div_le (head md) per_segment Hpos).
    pose proof (Z.mul_succ_div_gt (tail md) per_segment Hpos).
    nia. }
  destruct (append_fresh_version cfg s pdata size ver_ mhlc Hver)
    as [[Hfull E] | [Hfull [E Hmd]]]; fold md in Hfull.
  - apply Hchk in Hfull.
    unfold result. rewrite E. simpl.
    split; [split; [intros _; exact Hfull | reflexivity]|].
    split; [intros Hb; apply Hdiv in Hb; lia | discriminate].
  - assert (Hno : ~ tail md / per_segment - head md / per_segment > length).
    { intros Hgt. apply Hchk in Hgt.
      assert (Habs : true = false) by (rewrite <- Hgt; exact Hfull).
      discriminate Habs. }
    rewrite E.
    split; [split; [discriminate | intros Hgt; contradiction]|].
    split; [reflexivity|].
    intros _. destruct Hmd as (Hh & Ht & _). fold md' in Hh, Ht. fold md in Hh, Ht.
    rewrite Hh, Ht. apply Hspan. lia.
Qed.

Lemma append_log_full_witness :
  (result (append Scenario.sample zeroed 1 4 (Scenario.hlc 103 0)) Scenario.scenario1
   = Throw LogFull
   <-> tail (m_currLogMetadata Scenario.scenario1) / ENTRIES_PER_SEGMENT Scenario.sample
       - head (m_currLogMetadata Scenario.scenario1) / ENTRIES_PER_SEGMENT Scenario.sample
       > SPDK_LOG_ENTRY_ADDRESS_TABLE_LENGTH Scenario.sample) /\
  (tail (m_currLogMetadata Scenario.scenario1)
   - head (m_currLogMetadata Scenario.scenario1) + 1
   <= SPDK_LOG_ENTRY_ADDRESS_TABLE_LENGTH Scenario.sample
      * ENTRIES_PER_SEGMENT Scenario.sample ->
   result (append Scenario.sample zeroed 1 4 (Scenario.hlc 103 0)) Scenario.scenario1
   = Ret tt) /\
  (result (append Scenario.sample zeroed 1 4 (Scenario.hlc 103 0)) Scenario.scenario1
   = Ret tt ->
   tail (m_currLogMetadata
           (exec (append Scenario.sample zeroed 1 4 (Scenario.hlc 103 0))
                 Scenario.scenario1))
   - head (m_currLogMetadata
             (exec (append Scenario.sample zeroed 1 4 (Scenario.hlc 103 0))
                   Scenario.scenario1))
   <= (SPDK_LOG_ENTRY_ADDRESS_TABLE_LENGTH Scenario.sample + 1)
      * ENTRIES_PER_SEGMENT Scenario.sample).
Proof.
  apply (append_log_full Scenario.sample Scenario.scenario1
           zeroed 1 4 (Scenario.hlc 103 0)).
  - unfold config_ok. vm_compute. repeat split; discriminate.
  - vm_compute. split; discriminate.
  - vm_compute. reflexivity.
  - vm_compute. reflexivity.
Defined.

(** C9, the claim as written, fails: with [head = 0] and
    [tail = LOG_ENTRY_ADDRESS_TABLE_LENGTH * ENTRIES_PER_SEGMENT] one more
    entry exceeds the stated capacity, yet append accepts it and leaves
    [tail - head] above the bound. *)
Lemma append_log_full_counterexample :
  let s := Scenario.at_capacity in
  let app := append Scenario.sample (of_list [Byte.x61]) 1 8 (Scenario.hlc 100 0) in
  let capacity := SPDK_LOG_ENTRY_ADDRESS_TABLE_LENGTH Scenario.sample
                  * ENTRIES_PER_SEGMENT Scenario.sample in
  0 <= head (m_currLogMetadata s) <= tail (m_currLogMetadata s) /\
  tail (m_currLogMetadata s) - head (m_currLogMetadata s) + 1 > capacity /\
  result app s = Ret tt /\
  tail (m_currLogMetadata (exec app s)) - head (m_currLogMetadata (exec app s))
  > capacity.
Proof.
  vm_compute. repeat split; try reflexivity; discriminate.
Qed.

(** ** Running the searches *)

Lemma upper_bound_scenario1 (cfg : Config) (s : SPDKPersistLog) (fuel : nat) :
  holds_scenario1 cfg s -> entry_ver cfg s (-1) <> 1 -> (2 <= fuel)%nat ->
  upper_bound cfg fuel 1 s
  = (Ret 0,
     {| m_currLogMetadata := m_currLogMetadata s;
        threads := log_access (ReadEntry (-1))
                     (log_access (ReadEntry 1) (threads s)) |}).
Proof.
  intros (Hh & Ht & H0 & H1 & H2) Hm Hf.
  destruct fuel as [|[|fuel]]; try lia.
  unfold entry_ver in *. unfold upper_bound. unfold_monad.
  rewrite Hh, Ht. run_facade. rewrite H1. run_facade.
  destruct (Z.eqb_spec
              (LogEntry.ver (entry_space (threads s)) (-1 * sizeof_LogEntry cfg)) 1);
    [contradiction | reflexivity].
Qed.

(** C5 (as amended). On a log holding the three entries of scenario 1
    (versions 1, 2, 3 at indices 0, 1, 2, head = 0) whose slot -1 does not
    hold version 1, upper_bound(1) is 0, the index of version 1 itself:
    truncate(ver=1) sets tail to 0 and commits the metadata; afterwards
    getLatestIndex() returns -1, lower_bound(2) returns -1, and
    getEntry(ver=2) raises nothing: it returns what read_data gives for
    index -1. *)
Theorem truncate_scenario1 (cfg : Config) (s : SPDKPersistLog) (fuel : nat) :
  holds_scenario1 cfg s -> entry_ver cfg s (-1) <> 1 -> (2 <= fuel)%nat ->
  let s' := exec (truncate cfg fuel 1) s in
  result (upper_bound cfg fuel 1) s = Ret 0 /\
  result (truncate cfg fuel 1) s = Ret tt /\
  head (m_currLogMetadata s') = 0 /\
  tail (m_currLogMetadata s') = 0 /\
  root (threads s') = m_currLogMetadata s' /\
  result getLatestIndex s' = Ret (-1) /\
  result (lower_bound cfg fuel 2) s' = Ret (-1) /\
  result (getEntry cfg fuel 2) s' = Ret (entry_ofst cfg s (-1)).
Proof.
  intros Hs Hm Hf s'.
  pose proof (upper_bound_scenario1 cfg s fuel Hs Hm Hf) as Hub.
  destruct Hs as (Hh & Ht & H0 & H1 & H2).
  assert (Hs' : s' = {| m_currLogMetadata := set_tail 0 (m_currLogMetadata s);
                        threads := commit (set_tail 0 (m_currLogMetadata s))
                                     (log_access (ReadEntry (-1))
                                        (log_access (ReadEntry 1) (threads s))) |}).
  { unfold s', exec, truncate, bind. rewrite Hub. reflexivity. }
  assert (Hlb : lower_bound cfg fuel 2 s'
                = (Ret (-1),
                   {| m_currLogMetadata := m_currLogMetadata s';
                      threads := log_access (ReadEntry 0) (threads s') |})).
  { rewrite Hs'. destruct fuel as [|fuel]; [lia|].
    unfold entry_ver in *. unfold lower_bound. unfold_monad.
    cbn [m_currLogMetadata set_tail head tail fst snd]. rewrite Hh.
    run_facade. rewrite H0. reflexivity. }
  split; [unfold result; rewrite Hub; reflexivity|].
  split; [unfold result, truncate, bind; rewrite Hub; reflexivity|].
  split; [rewrite Hs'; exact Hh|].
  split; [rewrite Hs'; reflexivity|].
  split; [rewrite Hs'; reflexivity|].
  split; [rewrite Hs'; reflexivity|].
  split; [unfold result; rewrite Hlb; reflexivity|].
  unfold result, getEntry, bind. rewrite Hlb. rewrite Hs'. reflexivity.
Qed.

Lemma truncate_scenario1_witness :
  let s' := exec (truncate Scenario.sample 8 1) Scenario.scenario1 in
  result (upper_bound Scenario.sample 8 1) Scenario.scenario1 = Ret 0 /\
  result (truncate Scenario.sample 8 1) Scenario.scenario1 = Ret tt /\
  head (m_currLogMetadata s') = 0 /\
  tail (m_currLogMetadata s') = 0 /\
  root (threads s') = m_currLogMetadata s' /\
  result getLatestIndex s' = Ret (-1) /\
  result (lower_bound Scenario.sample 8 2) s' = Ret (-1) /\
  result (getEntry Scenario.sample 8 2) s'
  = Ret (entry_ofst Scenario.sample Scenario.scenario1 (-1)).
Proof.
  apply (truncate_scenario1 Scenario.sample Scenario.scenario1 8).
  - unfold holds_scenario1. vm_compute. repeat split; reflexivity.
  - vm_compute. discriminate.
  - lia.
Defined.

(** C5, the claim as written, fails on the log of scenario 1:
    truncate(ver=1) leaves tail = 0, not 1, so getLatestIndex() is not 0,
    and getEntry(ver=2) raises no NotFound. *)
Lemma truncate_scenario1_counterexample :
  let s' := exec (truncate Scenario.sample 8 1) Scenario.scenario1 in
  holds_scenario1 Scenario.sample Scenario.scenario1 /\
  tail (m_currLogMetadata s') <> 1 /\
  result getLatestIndex s' <> Ret 0 /\
  result (getEntry Scenario.sample 8 2) s' <> Throw NotFound.
Proof.
  unfold holds_scenario1. vm_compute.
  repeat split; try reflexivity; discriminate.
Qed.

(** ** The searches on an empty log *)

(** On an empty log no search enters its loop, and each goes on to read
    the entry next to the empty range: the bounds from below read index
    [head], the bounds from above read index [head - 1].  What they return
    is [head - 1] or [head], by what that slot holds. *)
Lemma searches_on_empty_log (cfg : Config) (s : SPDKPersistLog)
      (fuel : nat) (ver_ : Z) (hlc : HLC) :
  tail (m_currLogMetadata s) = head (m_currLogMetadata s) -> (1 <= fuel)%nat ->
  let h := head (m_currLogMetadata s) in
  let reads (s' : SPDKPersistLog) (idx : Z) :=
    exists rest, accesses (threads s') = accesses (threads s) ++ ReadEntry idx :: rest in
  let returns (r : outcome Z) := r = Ret (h - 1) \/ r = Ret h in
  (reads (exec (lower_bound cfg fuel ver_) s) h /\
   returns (result (lower_bound cfg fuel ver_) s)) /\
  (reads (exec (upper_bound cfg fuel ver_) s) (h - 1) /\
   returns (result (upper_bound cfg fuel ver_) s)) /\
  (reads (exec (lower_bound_hlc cfg fuel hlc) s) h /\
   returns (result (lower_bound_hlc cfg fuel hlc) s)) /\
  (reads (exec (upper_bound_hlc cfg fuel hlc) s) (h - 1) /\
   returns (result (upper_bound_hlc cfg fuel hlc) s)).
Proof.
  intros Ht Hf h reads returns. unfold reads, returns.
  destruct fuel as [|fuel]; [lia|].
  assert (E1 : (h <=? h - 1) = false) by (apply Z.leb_gt; lia).
  assert (E2 : (h <? h - 1) = false) by (apply Z.ltb_ge; lia).
  assert (E3 : h - 1 + 1 = h) by lia.
  unfold exec, result.
  repeat split.
  - unfold lower_bound. unfold_monad. rewrite Ht. fold h. run_facade.
    rewrite E1, E3. run_facade.
    destruct (_ =? ver_); eexists; reflexivity.
  - unfold lower_bound. unfold_monad. rewrite Ht. fold h. run_facade.
    rewrite E1, E3. run_facade.
    destruct (_ =? ver_); [right | left]; reflexivity.
  - unfold upper_bound. unfold_monad. rewrite Ht. fold h. run_facade.
    rewrite E2. run_facade.
    destruct (_ =? ver_); eexists; reflexivity.
  - unfold upper_bound. unfold_monad. rewrite Ht. fold h. run_facade.
    rewrite E2. run_facade.
    destruct (_ =? ver_); [left | right]; reflexivity.
  - unfold lower_bound_hlc. unfold_monad. rewrite Ht. fold h. run_facade.
    rewrite E1, E3. run_facade.
    destruct (_ =? m_rtc_us hlc); run_facade;
      [destruct (_ =? m_logic hlc)|]; eexists; cbn [snd threads accesses log_access];
      rewrite <- ?app_assoc; reflexivity.
  - unfold lower_bound_hlc. unfold_monad. rewrite Ht. fold h. run_facade.
    rewrite E1, E3. run_facade.
    destruct (_ =? m_rtc_us hlc); run_facade;
      [destruct (_ =? m_logic hlc); [right | left] | left]; reflexivity.
  - unfold upper_bound_hlc. unfold_monad. rewrite Ht. fold h. run_facade.
    rewrite E1. run_facade.
    destruct (_ =? m_rtc_us hlc); run_facade;
      [destruct (_ =? m_logic hlc)|]; eexists; cbn [snd threads accesses log_access];
      rewrite <- ?app_assoc; reflexivity.
  - unfold upper_bound_hlc. unfold_monad. rewrite Ht. fold h. run_facade.
    rewrite E1. run_facade.
    destruct (_ =? m_rtc_us hlc); run_facade;
      [destruct (_ =? m_logic hlc); [left | right] | right]; reflexivity.
Qed.

(** C6, at the failing input: on the fresh, empty log (head = tail = 0)
    each search reads the device, at an index outside [head, tail):
    lower_bound reads entry 0 and returns -1, upper_bound reads entry -1
    and returns 0. *)
Theorem searches_on_fresh_log_read_device :
  let after {A : Type} (m : M A) := accesses (threads (exec m Scenario.fresh)) in
  accesses (threads Scenario.fresh) = [] /\
  (result (lower_bound Scenario.sample 8 1) Scenario.fresh = Ret (-1) /\
   after (lower_bound Scenario.sample 8 1) = [ReadEntry 0]) /\
  (result (upper_bound Scenario.sample 8 1) Scenario.fresh = Ret 0 /\
   after (upper_bound Scenario.sample 8 1) = [ReadEntry (-1)]) /\
  (result (lower_bound_hlc Scenario.sample 8 (Scenario.hlc 100 0)) Scenario.fresh
   = Ret (-1) /\
   after (lower_bound_hlc Scenario.sample 8 (Scenario.hlc 100 0)) = [ReadEntry 0]) /\
  (result (upper_bound_hlc Scenario.sample 8 (Scenario.hlc 100 0)) Scenario.fresh
   = Ret 0 /\
   after (upper_bound_hlc Scenario.sample 8 (Scenario.hlc 100 0)) = [ReadEntry (-1)]).
Proof. vm_compute. repeat split; reflexivity. Qed.

(** ** to_bytes *)

(** Whatever the log holds, the buffer that to_bytes leaves is the
    buffer it was given with the two header fields written: the loop
    never stores into it. *)
Lemma to_bytes_buffer (cfg : Config) (fuel : nat) (s s' : SPDKPersistLog)
      (buf buf' : bytes) (ver_ n : Z) :
  to_bytes cfg fuel buf ver_ s = (Ret (n, buf'), s') ->
  exists idx s1,
    upper_bound cfg fuel ver_ s = (Ret idx, s1) /\
    buf' = store_64 (store_64 buf 0 (ver (m_currLogMetadata s1))) sizeof_int64
             (if idx =? INVALID_INDEX cfg then 0
              else tail (m_currLogMetadata s1) - idx).
Proof.
  unfold to_bytes. unfold bind at 1.
  destruct (upper_bound cfg fuel ver_ s) as [[idx| |] s1]; try discriminate.
  intros H. exists idx, s1. split; [reflexivity|].
  revert H. unfold_monad. cbn [fst snd].
  destruct (idx =? INVALID_INDEX cfg); cbn [negb].
  - intros H. inversion H. reflexivity.
  - destruct (while fuel _ _ _) as [[r| |] s2]; try discriminate.
    intros H. inversion H. reflexivity.
Qed.

(** When upper_bound answers INVALID_INDEX or tail, to_bytes writes the
    header with an entry count of 0 and nothing else. *)
Lemma to_bytes_header_only (cfg : Config) (fuel : nat) (s s1 : SPDKPersistLog)
      (buf : bytes) (ver_ idx : Z) :
  (1 <= fuel)%nat ->
  upper_bound cfg fuel ver_ s = (Ret idx, s1) ->
  idx = INVALID_INDEX cfg \/ idx = tail (m_currLogMetadata s1) ->
  to_bytes cfg fuel buf ver_ s
  = (Ret (2 * sizeof_int64,
          store_64 (store_64 buf 0 (ver (m_currLogMetadata s1))) sizeof_int64 0),
     s1).
Proof.
  intros Hf Hub Hidx.
  unfold to_bytes. unfold bind at 1. rewrite Hub.
  unfold_monad. cbn [fst snd].
  destruct (Z.eqb_spec idx (INVALID_INDEX cfg)) as [E|E]; cbn [negb].
  - reflexivity.
  - destruct Hidx as [Hidx|Hidx]; [contradiction|].
    destruct fuel as [|fuel]; [lia|].
    cbn [while]. unfold_monad. cbn [fst snd].
    rewrite Hidx, Z.ltb_irrefl, Z.sub_diag. reflexivity.
Qed.

Lemma upper_bound_empty (cfg : Config) (s : SPDKPersistLog) (fuel : nat) (ver_ : Z) :
  tail (m_currLogMetadata s) = head (m_currLogMetadata s) ->
  entry_ver cfg s (head (m_currLogMetadata s) - 1) <> ver_ ->
  (1 <= fuel)%nat ->
  upper_bound cfg fuel ver_ s
  = (Ret (head (m_currLogMetadata s)),
     {| m_currLogMetadata := m_currLogMetadata s;
        threads := log_access (ReadEntry (head (m_currLogMetadata s) - 1))
                     (threads s) |}).
Proof.
  intros Ht Hv Hf. destruct fuel as [|fuel]; [lia|].
  unfold entry_ver in Hv. unfold upper_bound. unfold_monad. rewrite Ht.
  set (h := head (m_currLogMetadata s)) in *.
  assert (E : (h <? h - 1) = false) by (apply Z.ltb_ge; lia).
  run_facade. rewrite E. run_facade.
  destruct (Z.eqb_spec (LogEntry.ver (entry_space (threads s))
                                     ((h - 1) * sizeof_LogEntry cfg)) ver_);
    [contradiction | reflexivity].
Qed.

(** C7 (as amended). On an empty log (tail = head) whose slot head - 1
    does not hold the version [ver], to_bytes(buf, ver) writes exactly the
    two-field header, metadata.ver followed by an entry count of 0, and
    returns 2 * sizeof(int64_t); the rest of the buffer, the metadata and
    the device contents stay as they were. *)
Theorem to_bytes_empty_log (cfg : Config) (s : SPDKPersistLog) (fuel : nat)
        (buf : bytes) (ver_ : Z) :
  tail (m_currLogMetadata s) = head (m_currLogMetadata s) ->
  entry_ver cfg s (head (m_currLogMetadata s) - 1) <> ver_ ->
  int64_range (ver (m_currLogMetadata s)) ->
  (1 <= fuel)%nat ->
  let s' := exec (to_bytes cfg fuel buf ver_) s in
  exists buf',
    result (to_bytes cfg fuel buf ver_) s = Ret (2 * sizeof_int64, buf') /\
    load_i64 buf' 0 = ver (m_currLogMetadata s) /\
    load_i64 buf' sizeof_int64 = 0 /\
    (forall a, a < 0 \/ 2 * sizeof_int64 <= a -> buf' a = buf a) /\
    m_currLogMetadata s' = m_currLogMetadata s /\
    entry_space (threads s') = entry_space (threads s) /\
    data_space (threads s') = data_space (threads s).
Proof.
  intros Ht Hv Hr Hf s'.
  pose proof (upper_bound_empty cfg s fuel ver_ Ht Hv Hf) as Hub.
  pose proof (to_bytes_header_only cfg fuel s _ buf ver_ _ Hf Hub
                (or_intror (eq_sym Ht))) as Htb.
  cbn [m_currLogMetadata] in Htb.
  unfold s', exec, result. rewrite Htb. cbn [fst snd].
  eexists. split; [reflexivity|].
  unfold sizeof_int64.
  split.
  { rewrite load_i64_store_64_other by lia.
    apply load_i64_store_64_same, Hr. }
  split.
  { apply load_i64_store_64_same. unfold int64_range. lia. }
  split.
  { intros a Ha. rewrite !store_64_outside by lia. reflexivity. }
  repeat split; reflexivity.
Qed.

Lemma to_bytes_empty_log_witness :
  exists buf',
    result (to_bytes Scenario.sample 8 zeroed 5) Scenario.fresh
    = Ret (2 * sizeof_int64, buf') /\
    load_i64 buf' 0 = ver (m_currLogMetadata Scenario.fresh) /\
    load_i64 buf' sizeof_int64 = 0 /\
    (forall a, a < 0 \/ 2 * sizeof_int64 <= a -> buf' a = zeroed a) /\
    m_currLogMetadata (exec (to_bytes Scenario.sample 8 zeroed 5) Scenario.fresh)
    = m_currLogMetadata Scenario.fresh /\
    entry_space (threads (exec (to_bytes Scenario.sample 8 zeroed 5) Scenario.fresh))
    = entry_space (threads Scenario.fresh) /\
    data_space (threads (exec (to_bytes Scenario.sample 8 zeroed 5) Scenario.fresh))
    = data_space (threads Scenario.fresh).
Proof.
  apply (to_bytes_empty_log Scenario.sample Scenario.fresh 8 zeroed 5).
  - reflexivity.
  - vm_compute. discriminate.
  - unfold int64_range. vm_compute. split; [discriminate | reflexivity].
  - lia.
Defined.

(** C7, the claim as written, fails on the log of scenario 1 with
    [ver = 3 = metadata.ver]: upper_bound(3) is 2, the index of version 3
    itself, so the header carries an entry count of 1 and to_bytes goes
    through one record, returning 16 + 64 bytes. *)
Lemma to_bytes_latest_version_counterexample :
  ver (m_currLogMetadata Scenario.scenario1) <= 3 /\
  result (upper_bound Scenario.sample 8 3) Scenario.scenario1 = Ret 2 /\
  match result (to_bytes Scenario.sample 8 zeroed 3) Scenario.scenario1 with
  | Ret (n, buf') =>
      n = 80 /\ n <> 2 * sizeof_int64 /\ load_i64 buf' sizeof_int64 = 1
  | _ => False
  end.
Proof.
  vm_compute. repeat split; try reflexivity; discriminate.
Qed.

(** ** getHLCIndex *)

(** C8, at the failing input: the log holds two live entries with the
    strictly increasing clocks (100, 0) and (100, 1).  getHLCIndex stops at
    the first entry whose hlc_r matches and never looks at hlc_l: asked for
    (100, 1) it returns index 0, whose clock is (100, 0), and asked for
    (100, 7), which no entry carries, it returns index 0 again. *)
Theorem getHLCIndex_ignores_logic :
  let s := Scenario.same_rtc in
  head (m_currLogMetadata s) = 0 /\ tail (m_currLogMetadata s) = 2 /\
  (entry_hlc_r Scenario.sample s 0, entry_hlc_l Scenario.sample s 0) = (100, 0) /\
  (entry_hlc_r Scenario.sample s 1, entry_hlc_l Scenario.sample s 1) = (100, 1) /\
  result (getHLCIndex Scenario.sample 8 (Scenario.hlc 100 1)) s = Ret 0 /\
  result (getHLCIndex Scenario.sample 8 (Scenario.hlc 100 7)) s = Ret 0.
Proof. vm_compute. repeat split; reflexivity. Qed.

(** ** The clock fields of appended entries *)

(** Whatever the log holds, an append that is accepted leaves the
    hlc_r of the new entry as the slot had it and stores the logical
    component in hlc_l. *)
Lemma append_clock_fields (cfg : Config) (s : SPDKPersistLog)
      (pdata : bytes) (size ver_ : Z) (mhlc : HLC) :
  result (append cfg pdata size ver_ mhlc) s = Ret tt ->
  0 <= tail (m_currLogMetadata s) < SPDK_LOG_ADDRESS_SPACE cfg ->
  let s' := exec (append cfg pdata size ver_ mhlc) s in
  let idx := tail (m_currLogMetadata s) in
  entry_hlc_r cfg s' idx = entry_hlc_r cfg s idx /\
  entry_hlc_l cfg s' idx = u64 (m_logic mhlc).
Proof.
  intros Hret Hslot s' idx.
  unfold s', exec. revert Hret. unfold result, append. unfold_monad.
  cbn [fst snd].
  destruct (ver_ <=? _); [discriminate|].
  destruct (_ >? _); [discriminate|]. intros _.
  fold idx in Hslot |- *.
  unfold entry_hlc_r, entry_hlc_l.
  destruct (idx - head (m_currLogMetadata s) =? 0); run_facade;
    fold idx; rewrite Z.add_simpl_r, Z.rem_small by lia;
    unfold LogEntry.hlc_r, LogEntry.hlc_l, LogEntry.OFF_hlc_r, LogEntry.OFF_hlc_l,
           LogEntry.OFF_ofst, LogEntry.OFF_ver, LogEntry.OFF_dlen;
    rewrite !load_u64_std_copy_self;
    (split;
     [ rewrite !load_u64_store_64_other by lia; reflexivity
     | rewrite load_u64_store_64_other by lia;
       apply load_u64_store_64_same ]).
Qed.

(** C3, at the failing input: append assigns hlc_l twice and hlc_r never.
    After appending version 1 with clock (100, 5) and version 2 with clock
    (101, 0) to a fresh log, the two live entries carry the clocks (0, 5)
    and (0, 0): hlc_r is what the slot held before, not m_rtc_us, and the
    stored clocks decrease although the supplied ones increase. *)
Theorem append_loses_rtc :
  let s := Scenario.two_clocks in
  head (m_currLogMetadata s) = 0 /\ tail (m_currLogMetadata s) = 2 /\
  (entry_ver Scenario.sample s 0, entry_ver Scenario.sample s 1) = (1, 2) /\
  (entry_hlc_r Scenario.sample s 0, entry_hlc_l Scenario.sample s 0) = (0, 5) /\
  (entry_hlc_r Scenario.sample s 1, entry_hlc_l Scenario.sample s 1) = (0, 0) /\
  entry_hlc_r Scenario.sample s 0 <> 100 /\
  entry_hlc_r Scenario.sample s 0 = entry_hlc_r Scenario.sample s 1 /\
  entry_hlc_l Scenario.sample s 0 > entry_hlc_l Scenario.sample s 1.
Proof. vm_compute. repeat split; try reflexivity; discriminate. Qed.

(** ** State transfer *)

(** C1, at the failing input: the log of scenario 1 is serialized into a
    zeroed buffer and applied to a fresh log.  to_bytes writes the header
    (latest version 3, three entries) and no record: its copies run from
    the buffer into the log, so the sender's own entries are overwritten
    with the zeros of the buffer and the returned size counts no payload
    byte.  The receiver finds three records of version 0, skips them, and
    stays empty with metadata.ver = 0. *)
Theorem state_transfer_does_not_round_trip :
  Scenario.sent_size = 2 * sizeof_int64 + 3 * sizeof_LogEntry Scenario.sample /\
  load_i64 Scenario.sent_bytes 0 = 3 /\
  load_i64 Scenario.sent_bytes sizeof_int64 = 3 /\
  entry_ver Scenario.sample Scenario.scenario1 0 = 1 /\
  entry_dlen Scenario.sample Scenario.scenario1 0 = 1 /\
  LogEntry.ver Scenario.sent_bytes (2 * sizeof_int64) = 0 /\
  LogEntry.dlen Scenario.sent_bytes (2 * sizeof_int64) = 0 /\
  entry_ver Scenario.sample Scenario.sender_after 0 = 0 /\
  result (applyLogTail Scenario.sample 8 Scenario.sent_bytes) Scenario.fresh
  <> OutOfFuel /\
  head (m_currLogMetadata Scenario.receiver_after) = 0 /\
  tail (m_currLogMetadata Scenario.receiver_after) = 0 /\
  ver (m_currLogMetadata Scenario.receiver_after) = 0 /\
  tail (m_currLogMetadata Scenario.scenario1)
  - head (m_currLogMetadata Scenario.scenario1) = 3 /\
  ver (m_currLogMetadata Scenario.scenario1) = 3.
Proof. vm_compute. repeat split; try reflexivity; discriminate. Qed.

(** * Further properties of the facade *)

(** ** Loops with an invariant *)

Lemma while_rule {St : Type} (body : St -> M (step St))
      (I Q : St -> SPDKPersistLog -> Prop) (measure : St -> nat) :
  (forall st l, I st l ->
     exists r l', body st l = (Ret r, l') /\
       match r with
       | Continue st' => I st' l' /\ (measure st' < measure st)%nat
       | Break st' => Q st' l'
       end) ->
  forall fuel st l, I st l -> (measure st < fuel)%nat ->
    exists st' l', while fuel body st l = (Ret st', l') /\ Q st' l'.
Proof.
  intros Hbody. induction fuel as [|fuel IH]; intros st l HI Hm; [lia|].
  destruct (Hbody st l HI) as (r & l' & E & Hr).
  cbn [while]. unfold bind. rewrite E.
  destruct r as [st'|st'].
  - destruct Hr as [HI' Hlt]. apply IH; [exact HI' | lia].
  - exists st', l'. split; [reflexivity | exact Hr].
Qed.

Lemma only_reads_refl (P : Z -> Prop) (s : SPDKPersistLog) : only_reads P s s.
Proof.
  unfold only_reads. repeat split; try reflexivity.
  exists []. split; [symmetry; apply app_nil_r | constructor].
Qed.

Lemma only_reads_touch (P : Z -> Prop) (s l : SPDKPersistLog) (idx : Z) :
  only_reads P s l -> P idx -> only_reads P s (touch (ReadEntry idx) l).
Proof.
  intros (Hm & He & Hd & Hr & Hw & tr & Ha & Hall) Hidx.
  unfold only_reads, touch. cbn.
  repeat split; try assumption.
  exists (tr ++ [ReadEntry idx]). split.
  - rewrite Ha. symmetry. apply app_assoc.
  - apply Forall_app. split; [exact Hall|].
    constructor; [|constructor]. exists idx. split; [reflexivity | exact Hidx].
Qed.

Lemma only_reads_weaken (P P' : Z -> Prop) (s l : SPDKPersistLog) :
  (forall i, P i -> P' i) -> only_reads P s l -> only_reads P' s l.
Proof.
  intros HP (Hm & He & Hd & Hr & Hw & tr & Ha & Hall).
  unfold only_reads. repeat split; try assumption.
  exists tr. split; [exact Ha|].
  eapply Forall_impl; [|exact Hall].
  intros a (idx & E & Hidx). exists idx. split; [exact E | apply HP, Hidx].
Qed.

Lemma midpoint (b e : Z) : 0 <= b -> b <= e -> b <= (b + e) ÷ 2 <= e.
Proof.
  intros Hb Hbe. rewrite Z.quot_div_nonneg by lia.
  split; [apply Z.div_le_lower_bound | apply Z.div_le_upper_bound]; lia.
Qed.

Lemma midpoint_lt (b e : Z) : 0 <= b -> b < e -> b <= (b + e) ÷ 2 < e.
Proof.
  intros Hb Hbe. rewrite Z.quot_div_nonneg by lia.
  split; [apply Z.div_le_lower_bound | apply Z.div_lt_upper_bound]; lia.
Qed.

Lemma s32_small (z : Z) : - 2 ^ 31 <= z < 2 ^ 31 -> s32 z = z.
Proof. intros H. unfold s32. rewrite Z.mod_small; lia. Qed.

(** The binary search of getVersionIndex, by its loop invariant: the
    entries before [begin] are older than [ver], those after [end] newer. *)
Lemma getVersionIndex_search (cfg : Config) (s : SPDKPersistLog)
        (ver_ : Z) (fuel : nat) :
  0 <= head (m_currLogMetadata s) ->
  versions_sorted cfg s ->
  (Z.to_nat (tail (m_currLogMetadata s) - head (m_currLogMetadata s)) < fuel)%nat ->
  exists r s', getVersionIndex cfg fuel ver_ s = (r, s') /\
    only_reads (live s) s s' /\
    ((exists i, live s i /\ entry_ver cfg s i = ver_ /\ r = Ret i) \/
     ((forall i, live s i -> entry_ver cfg s i <> ver_) /\ r = Throw NotFound)).
Proof.
  intros Hh Hsorted Hfuel.
  set (h := head (m_currLogMetadata s)) in *.
  set (t := tail (m_currLogMetadata s)) in *.
  pose (I := fun (st : Z * Z * Z) (l : SPDKPersistLog) =>
    let '(b, e, res) := st in
    only_reads (live s) s l /\ res = -1 /\ h <= b /\ e <= t - 1 /\
    (forall i, live s i -> i < b -> entry_ver cfg s i < ver_) /\
    (forall i, live s i -> e < i -> ver_ < entry_ver cfg s i)).
  pose (Q := fun (st : Z * Z * Z) (l : SPDKPersistLog) =>
    let '(b, e, res) := st in
    only_reads (live s) s l /\
    ((live s res /\ entry_ver cfg s res = ver_) \/
     (res = -1 /\ forall i, live s i -> entry_ver cfg s i <> ver_))).
  pose (measure := fun (st : Z * Z * Z) => let '(b, e, _) := st in Z.to_nat (e - b + 1)).
  unfold getVersionIndex. unfold bind at 1. unfold METADATA at 1. cbn [fst snd].
  fold h t.
  match goal with |- context [while fuel ?body ?st0] =>
    destruct (while_rule body I Q measure) with (fuel := fuel) (st := st0) (l := s)
      as ([[b e] res] & l' & Hrun & HQ)
  end.
  - (* body *)
    intros [[b e] res] l (Hro & Hres & Hb & He & Hlo & Hhi).
    destruct (Z.leb_spec b e) as [Hle|Hgt].
    + pose proof (midpoint b e ltac:(lia) Hle) as Hmid.
      set (mid := (b + e) ÷ 2) in *.
      assert (Hlive : live s mid) by (unfold live; fold h t; lia).
      pose proof (only_reads_touch _ _ _ mid Hro Hlive) as Hro'.
      assert (Hver : LogEntry.ver (entry_space (threads l)) (mid * sizeof_LogEntry cfg)
                     = entry_ver cfg s mid).
      { destruct Hro as (_ & He' & _). unfold entry_ver. rewrite He'. reflexivity. }
      run_body. rewrite Hver.
      destruct (Z.eqb_spec (entry_ver cfg s mid) ver_) as [Heq|Hne].
      * eexists _, _. split; [reflexivity|]. cbn.
        split; [exact Hro'|]. left. split; assumption.
      * destruct (Z.gtb_spec (entry_ver cfg s mid) ver_) as [Hgt|Hngt].
        -- eexists _, _. split; [reflexivity|]. cbn.
           split; [|unfold mid in *; lia].
           split; [exact Hro'|]. repeat split; try lia.
           ++ exact Hlo.
           ++ intros i Hi Hlt. 
              destruct (Z.eq_dec i mid) as [->|Hne']; [lia|].
              pose proof (Hsorted mid i Hlive Hi ltac:(lia)). lia.
        -- destruct (Z.ltb_spec (entry_ver cfg s mid) ver_) as [Hlt|Hnlt]; [|lia].
           eexists _, _. split; [reflexivity|]. cbn.
           split; [|unfold mid in *; lia].
           split; [exact Hro'|]. repeat split; try lia.
           ++ intros i Hi Hlt'.
              destruct (Z.eq_dec i mid) as [->|Hne']; [lia|].
              pose proof (Hsorted i mid Hi Hlive ltac:(lia)). lia.
           ++ exact Hhi.
    + eexists _, _. split; [reflexivity|]. cbn.
      split; [exact Hro|]. right. split; [exact Hres|].
      intros i Hi. destruct (Z.lt_ge_cases i b) as [Hib|Hib].
      * pose proof (Hlo i Hi Hib). lia.
      * pose proof (Hhi i Hi ltac:(lia)). lia.
  - (* initial *)
    cbn. split; [apply only_reads_refl|]. repeat split; try lia.
    + intros i Hi Hlt. unfold live in Hi. fold h t in Hi. lia.
    + intros i Hi Hlt. unfold live in Hi. fold h t in Hi. lia.
  - cbn. lia.
  - destruct HQ as (Hro & Hcase).
    unfold bind at 1. rewrite Hrun. unfold_monad. cbn beta iota.
    destruct (Z.eqb_spec res (-1)) as [E|E];
      (eexists _, l'; split; [reflexivity|]; split; [exact Hro|]).
    + destruct Hcase as [[Hlive _]|[_ Hnone]].
      * unfold live in Hlive. fold h t in Hlive. lia.
      * right. split; [exact Hnone | reflexivity].
    + destruct Hcase as [[Hlive Hver]|[Hres _]]; [|contradiction].
      left. exists res. split; [exact Hlive|]. split; [exact Hver | reflexivity].
Qed.

(** X2. On a log with [0 <= head] whose live versions increase strictly,
    getVersionIndex(ver) returns the index of the live entry that carries
    [ver], and raises NotFound when no live entry does; it reads entries
    at live indices only and changes nothing else. *)
Theorem getVersionIndex_finds (cfg : Config) (s : SPDKPersistLog)
        (ver_ : Z) (fuel : nat) :
  0 <= head (m_currLogMetadata s) ->
  versions_sorted cfg s ->
  (Z.to_nat (tail (m_currLogMetadata s) - head (m_currLogMetadata s)) < fuel)%nat ->
  exists r s', getVersionIndex cfg fuel ver_ s = (r, s') /\
    only_reads (live s) s s' /\
    ((exists i, live s i /\ entry_ver cfg s i = ver_ /\ r = Ret i) \/
     ((forall i, live s i -> entry_ver cfg s i <> ver_) /\ r = Throw NotFound)).
Proof. exact (getVersionIndex_search cfg s ver_ fuel). Qed.

Lemma getVersionIndex_finds_witness :
  exists r s',
    getVersionIndex Scenario.sample 8 2 Scenario.scenario1 = (r, s') /\
    only_reads (live Scenario.scenario1) Scenario.scenario1 s' /\
    ((exists i, live Scenario.scenario1 i /\
                entry_ver Scenario.sample Scenario.scenario1 i = 2 /\ r = Ret i) \/
     ((forall i, live Scenario.scenario1 i ->
                 entry_ver Scenario.sample Scenario.scenario1 i <> 2) /\
      r = Throw NotFound)).
Proof.
  apply (getVersionIndex_finds Scenario.sample Scenario.scenario1 2 8).
  - vm_compute. discriminate.
  - intros i j Hi Hj Hij. unfold live in Hi, Hj.
    change (head (m_currLogMetadata Scenario.scenario1)) with 0 in Hi, Hj.
    change (tail (m_currLogMetadata Scenario.scenario1)) with 3 in Hi, Hj.
    assert (Ei : i = 0 \/ i = 1 \/ i = 2) by lia.
    assert (Ej : j = 0 \/ j = 1 \/ j = 2) by lia.
    destruct Ei as [-> | [-> | ->]]; destruct Ej as [-> | [-> | ->]];
      try lia; vm_compute; reflexivity.
  - vm_compute. lia.
Defined.



(** ** lower_bound and trim *)

(** The binary search of lower_bound, by its loop invariant, and the
    look at the entry after [end] that follows it. *)
Lemma lower_bound_search (cfg : Config) (s : SPDKPersistLog)
        (ver_ : Z) (fuel : nat) :
  0 <= head (m_currLogMetadata s) <= tail (m_currLogMetadata s) ->
  tail (m_currLogMetadata s) <= 2 ^ 31 ->
  versions_sorted cfg s ->
  (Z.to_nat (tail (m_currLogMetadata s) - head (m_currLogMetadata s)) < fuel)%nat ->
  let h := head (m_currLogMetadata s) in
  let t := tail (m_currLogMetadata s) in
  exists r s', lower_bound cfg fuel ver_ s = (Ret r, s') /\
    only_reads (fun i => h <= i <= t) s s' /\
    h - 1 <= r <= t /\
    ((r < t /\
      (forall i, live s i -> i <= r -> entry_ver cfg s i <= ver_) /\
      (forall i, live s i -> r < i -> ver_ < entry_ver cfg s i)) \/
     (r = t /\ entry_ver cfg s t = ver_ /\
      forall i, live s i -> entry_ver cfg s i < ver_)).
Proof.
  intros Hh Ht Hsorted Hfuel h t. fold h t in Hh, Ht, Hfuel.
  pose (I := fun (st : Z * Z) (l : SPDKPersistLog) =>
    let '(b, e) := st in
    only_reads (live s) s l /\ h <= b /\ e <= t - 1 /\ b <= e + 1 /\
    (forall i, live s i -> i < b -> entry_ver cfg s i < ver_) /\
    (forall i, live s i -> e < i -> ver_ <= entry_ver cfg s i)).
  pose (Q := fun (st : Z * Z) (l : SPDKPersistLog) =>
    let '(b, e) := st in
    only_reads (live s) s l /\ h <= e + 1 <= t /\
    (forall i, live s i -> i <= e -> entry_ver cfg s i < ver_) /\
    (forall i, live s i -> e < i -> ver_ <= entry_ver cfg s i)).
  pose (measure := fun (st : Z * Z) => let '(b, e) := st in Z.to_nat (e - b + 1)).
  unfold lower_bound. unfold bind at 1. unfold METADATA at 1. cbn [fst snd].
  fold h t.
  match goal with |- context [while fuel ?body ?st0] =>
    destruct (while_rule body I Q measure) with (fuel := fuel) (st := st0) (l := s)
      as ([b e] & l' & Hrun & HQ)
  end.
  - intros [b e] l (Hro & Hb & He & Hbe & Hlo & Hhi).
    cbn beta iota.
    destruct (Z.leb_spec b e) as [Hle|Hgt].
    + pose proof (midpoint b e ltac:(lia) Hle) as Hmid.
      rewrite !(s32_small ((b + e) ÷ 2)) by lia.
      set (mid := (b + e) ÷ 2) in *.
      assert (Hlive : live s mid) by (unfold live; fold h t; lia).
      pose proof (only_reads_touch _ _ _ mid Hro Hlive) as Hro'.
      assert (Hv : LogEntry.ver (entry_space (threads l)) (mid * sizeof_LogEntry cfg)
                   = entry_ver cfg s mid).
      { destruct Hro as (_ & He' & _). unfold entry_ver. rewrite He'. reflexivity. }
      run_body. rewrite Hv.
      destruct (Z.leb_spec ver_ (entry_ver cfg s mid)) as [Hcmp|Hcmp].
      * eexists _, _. split; [reflexivity|]. cbn.
        split; [|unfold mid in *; lia].
        split; [exact Hro'|]. repeat split; try lia.
        -- exact Hlo.
        -- intros i Hi Hlt.
           destruct (Z.eq_dec i mid) as [->|Hne']; [lia|].
           pose proof (Hsorted mid i Hlive Hi ltac:(lia)). lia.
      * eexists _, _. split; [reflexivity|]. cbn.
        split; [|unfold mid in *; lia].
        split; [exact Hro'|]. repeat split; try lia.
        -- intros i Hi Hlt.
           destruct (Z.eq_dec i mid) as [->|Hne']; [lia|].
           pose proof (Hsorted i mid Hi Hlive ltac:(lia)). lia.
        -- exact Hhi.
    + eexists _, _. split; [reflexivity|]. cbn.
      split; [exact Hro|]. split; [lia|]. split.
      * intros i Hi Hie. apply Hlo; [exact Hi | lia].
      * exact Hhi.
  - cbn. split; [apply only_reads_refl|]. repeat split; try lia.
    + intros i Hi Hlt. unfold live in Hi. fold h t in Hi. lia.
    + intros i Hi Hlt. unfold live in Hi. fold h t in Hi. lia.
  - cbn. lia.
  - destruct HQ as (Hro & He & Hlo & Hhi).
    unfold bind at 1. rewrite Hrun. cbn beta iota.
    assert (Hro' : only_reads (fun i => h <= i <= t) s (touch (ReadEntry (e + 1)) l')).
    { apply only_reads_touch; [|lia].
      eapply only_reads_weaken; [|exact Hro].
      intros i Hi. unfold live in Hi. fold h t in Hi. lia. }
    assert (Hv : LogEntry.ver (entry_space (threads l')) ((e + 1) * sizeof_LogEntry cfg)
                 = entry_ver cfg s (e + 1)).
    { destruct Hro as (_ & He' & _). unfold entry_ver. rewrite He'. reflexivity. }
    run_body. rewrite Hv.
    destruct (Z.eqb_spec (entry_ver cfg s (e + 1)) ver_) as [Heq|Hne];
      (eexists _, _; split; [reflexivity|]; split; [exact Hro'|]).
    + split; [lia|].
      destruct (Z.eq_dec (e + 1) t) as [Et|Et].
      * right. split; [exact Et|]. split; [rewrite <- Et; exact Heq|].
        intros i Hi. apply Hlo; [exact Hi|]. unfold live in Hi. fold h t in Hi. lia.
      * left. split; [lia|].
        assert (Hlive : live s (e + 1)) by (unfold live; fold h t; lia).
        split.
        -- intros i Hi Hie. destruct (Z.eq_dec i (e + 1)) as [->|Hn]; [lia|].
           pose proof (Hlo i Hi ltac:(lia)). lia.
        -- intros i Hi Hlt.
           pose proof (Hsorted (e + 1) i Hlive Hi Hlt). lia.
    + split; [lia|]. left. split; [lia|]. split.
      * intros i Hi Hie. pose proof (Hlo i Hi Hie). lia.
      * intros i Hi Hlt.
        destruct (Z.eq_dec i (e + 1)) as [->|Hn].
        -- pose proof (Hhi (e + 1) Hi ltac:(lia)). lia.
        -- assert (Hlive : live s (e + 1))
             by (unfold live in Hi |- *; fold h t in Hi |- *; lia).
           pose proof (Hsorted (e + 1) i Hlive Hi ltac:(lia)).
           pose proof (Hhi (e + 1) Hlive ltac:(lia)). lia.
Qed.





(** ** upper_bound and truncate *)

(** The loop of upper_bound keeps [begin] inside the live range. *)
Lemma upper_bound_search (cfg : Config) (s : SPDKPersistLog)
        (ver_ : Z) (fuel : nat) :
  0 <= head (m_currLogMetadata s) < tail (m_currLogMetadata s) ->
  tail (m_currLogMetadata s) <= 2 ^ 31 ->
  (Z.to_nat (tail (m_currLogMetadata s) - head (m_currLogMetadata s)) < fuel)%nat ->
  let h := head (m_currLogMetadata s) in
  let t := tail (m_currLogMetadata s) in
  exists r s', upper_bound cfg fuel ver_ s = (Ret r, s') /\
    only_reads (fun i => h - 1 <= i < t) s s' /\
    h - 1 <= r <= t - 1 /\
    (r = h - 1 -> entry_ver cfg s (h - 1) = ver_).
Proof.
  intros Hh Ht Hfuel h t. fold h t in Hh, Ht, Hfuel.
  pose (I := fun (st : Z * Z) (l : SPDKPersistLog) =>
    let '(b, e) := st in
    only_reads (live s) s l /\ h <= b <= t - 1 /\ b - 1 <= e <= t - 1).
  pose (Q := fun (st : Z * Z) (l : SPDKPersistLog) =>
    let '(b, e) := st in
    only_reads (live s) s l /\ h <= b <= t - 1).
  pose (measure := fun (st : Z * Z) => let '(b, e) := st in Z.to_nat (e - b + 1)).
  unfold upper_bound. unfold bind at 1. unfold METADATA at 1. cbn [fst snd].
  fold h t.
  match goal with |- context [while fuel ?body ?st0] =>
    destruct (while_rule body I Q measure) with (fuel := fuel) (st := st0) (l := s)
      as ([b e] & l' & Hrun & HQ)
  end.
  - intros [b e] l (Hro & Hb & He).
    cbn beta iota.
    destruct (Z.ltb_spec b e) as [Hlt|Hge].
    + pose proof (midpoint_lt b e ltac:(lia) Hlt) as Hmid.
      rewrite !(s32_small ((b + e) ÷ 2)) by lia.
      set (mid := (b + e) ÷ 2) in *.
      assert (Hlive : live s mid) by (unfold live; fold h t; lia).
      pose proof (only_reads_touch _ _ _ mid Hro Hlive) as Hro'.
      run_body.
      destruct (ver_ >=? _);
        (eexists _, _; split; [reflexivity|]; cbn;
         split; [|unfold mid in *; lia];
         split; [exact Hro'|]; lia).
    + eexists _, _. split; [reflexivity|]. cbn.
      split; [exact Hro | lia].
  - cbn. split; [apply only_reads_refl|]. lia.
  - cbn. lia.
  - destruct HQ as (Hro & Hb).
    unfold bind at 1. rewrite Hrun. cbn beta iota.
    assert (Hro' : only_reads (fun i => h - 1 <= i < t) s (touch (ReadEntry (b - 1)) l')).
    { apply only_reads_touch; [|lia].
      eapply only_reads_weaken; [|exact Hro].
      intros i Hi. unfold live in Hi. fold h t in Hi. lia. }
    assert (Hv : LogEntry.ver (entry_space (threads l')) ((b - 1) * sizeof_LogEntry cfg)
                 = entry_ver cfg s (b - 1)).
    { destruct Hro as (_ & He' & _). unfold entry_ver. rewrite He'. reflexivity. }
    run_body. rewrite Hv.
    destruct (Z.eqb_spec (entry_ver cfg s (b - 1)) ver_) as [Heq|Hne];
      (eexists _, _; split; [reflexivity|]; split; [exact Hro'|]).
    + split; [lia|]. intros E. replace (h - 1) with (b - 1) by lia. exact Heq.
    + split; [lia|]. intros E. lia.
Qed.

(** X6. On a non-empty log with [0 <= head < tail <= 2^31], whatever its
    entries hold, upper_bound(ver) returns an index between [head - 1] and
    [tail - 1]: it never answers [tail], and it answers [head - 1] only
    when the slot before the live range holds [ver].  It reads entries in
    [head - 1, tail) only and changes nothing else. *)
Theorem upper_bound_below_tail (cfg : Config) (s : SPDKPersistLog)
        (ver_ : Z) (fuel : nat) :
  0 <= head (m_currLogMetadata s) < tail (m_currLogMetadata s) ->
  tail (m_currLogMetadata s) <= 2 ^ 31 ->
  (Z.to_nat (tail (m_currLogMetadata s) - head (m_currLogMetadata s)) < fuel)%nat ->
  let h := head (m_currLogMetadata s) in
  let t := tail (m_currLogMetadata s) in
  exists r s', upper_bound cfg fuel ver_ s = (Ret r, s') /\
    only_reads (fun i => h - 1 <= i < t) s s' /\
    h - 1 <= r <= t - 1 /\
    (r = h - 1 -> entry_ver cfg s (h - 1) = ver_).
Proof. exact (upper_bound_search cfg s ver_ fuel). Qed.

Lemma upper_bound_below_tail_witness :
  let s := Scenario.scenario1 in
  let h := head (m_currLogMetadata s) in
  let t := tail (m_currLogMetadata s) in
  exists r s', upper_bound Scenario.sample 8 5 s = (Ret r, s') /\
    only_reads (fun i => h - 1 <= i < t) s s' /\
    h - 1 <= r <= t - 1 /\
    (r = h - 1 -> entry_ver Scenario.sample s (h - 1) = 5).
Proof.
  apply (upper_bound_below_tail Scenario.sample Scenario.scenario1 5 8).
  - vm_compute. split; [discriminate | reflexivity].
  - vm_compute. discriminate.
  - vm_compute. lia.
Defined.

(** X7. On a non-empty log with [0 <= head < tail <= 2^31], truncate(ver)
    succeeds and always retracts tail by at least one entry, whatever
    [ver] is (also for [ver >= metadata.ver]): the new tail lies in
    [head - 1, tail - 1], below [head] only when the slot before the live
    range holds [ver].  head, metadata.ver and the device contents are
    kept and the new metadata is committed. *)
Theorem truncate_retracts_tail (cfg : Config) (s : SPDKPersistLog)
        (ver_ : Z) (fuel : nat) :
  0 <= head (m_currLogMetadata s) < tail (m_currLogMetadata s) ->
  tail (m_currLogMetadata s) <= 2 ^ 31 ->
  (Z.to_nat (tail (m_currLogMetadata s) - head (m_currLogMetadata s)) < fuel)%nat ->
  let s' := exec (truncate cfg fuel ver_) s in
  result (truncate cfg fuel ver_) s = Ret tt /\
  head (m_currLogMetadata s) - 1 <= tail (m_currLogMetadata s')
    < tail (m_currLogMetadata s) /\
  (entry_ver cfg s (head (m_currLogMetadata s) - 1) <> ver_ ->
   head (m_currLogMetadata s) <= tail (m_currLogMetadata s')) /\
  head (m_currLogMetadata s') = head (m_currLogMetadata s) /\
  ver (m_currLogMetadata s') = ver (m_currLogMetadata s) /\
  root (threads s') = m_currLogMetadata s' /\
  entry_space (threads s') = entry_space (threads s) /\
  data_space (threads s') = data_space (threads s).
Proof.
  intros Hh Ht Hfuel s'.
  destruct (upper_bound_search cfg s ver_ fuel Hh Ht Hfuel)
    as (r & l & Hub & Hro & Hr & Hstale).
  destruct Hro as (Hmd & Hes & Hds & _).
  assert (Htr : truncate cfg fuel ver_ s
                = (Ret tt,
                   {| m_currLogMetadata := set_tail r (m_currLogMetadata l);
                      threads := commit (set_tail r (m_currLogMetadata l)) (threads l) |}))
    by (unfold truncate, bind; rewrite Hub; reflexivity).
  unfold s', exec, result. rewrite Htr.
  cbn [fst snd m_currLogMetadata threads set_tail head tail ver commit root
       entry_space data_space].
  rewrite Hmd, Hes, Hds.
  split; [reflexivity|]. split; [lia|].
  split.
  { intros Hne. destruct (Z.eq_dec r (head (m_currLogMetadata s) - 1)) as [E|E];
      [apply Hstale in E; contradiction | lia]. }
  repeat split; reflexivity.
Qed.

Lemma truncate_retracts_tail_witness :
  let s := Scenario.scenario1 in
  let s' := exec (truncate Scenario.sample 8 5) s in
  result (truncate Scenario.sample 8 5) s = Ret tt /\
  head (m_currLogMetadata s) - 1 <= tail (m_currLogMetadata s')
    < tail (m_currLogMetadata s) /\
  (entry_ver Scenario.sample s (head (m_currLogMetadata s) - 1) <> 5 ->
   head (m_currLogMetadata s) <= tail (m_currLogMetadata s')) /\
  head (m_currLogMetadata s') = head (m_currLogMetadata s) /\
  ver (m_currLogMetadata s') = ver (m_currLogMetadata s) /\
  root (threads s') = m_currLogMetadata s' /\
  entry_space (threads s') = entry_space (threads s) /\
  data_space (threads s') = data_space (threads s).
Proof.
  apply (truncate_retracts_tail Scenario.sample Scenario.scenario1 5 8).
  - vm_compute. split; [discriminate | reflexivity].
  - vm_compute. discriminate.
  - vm_compute. lia.
Defined.

(** ** trimByIndex *)

(** The two branches of trimByIndex. *)
Lemma trimByIndex_effect (s : SPDKPersistLog) (idx : Z) :
  let md := m_currLogMetadata s in
  let s' := exec (trimByIndex idx) s in
  let md' := m_currLogMetadata s' in
  result (trimByIndex idx) s = Ret tt /\
  (idx < head md \/ tail md <= idx -> s' = s) /\
  (head md <= idx < tail md ->
   head md' = idx + 1 /\ root (threads s') = md') /\
  tail md' = tail md /\ ver md' = ver md /\
  entry_space (threads s') = entry_space (threads s) /\
  data_space (threads s') = data_space (threads s) /\
  head md <= head md' /\
  (head md <= tail md -> head md' <= tail md').
Proof.
  intros md s' md'. unfold md', s', exec, result, trimByIndex.
  do 3 unfold_monad. cbn [fst snd]. fold md.
  destruct (Z.ltb_spec idx (head md)) as [Hlt|Hge]; cbn [orb].
  - cbn [fst snd]. fold md.
    split; [reflexivity|]. split; [reflexivity|]. split; [lia|].
    repeat split; try reflexivity; lia.
  - destruct (Z.geb_spec idx (tail md)) as [Hge'|Hlt'].
    + cbn [fst snd]. fold md.
      split; [reflexivity|]. split; [reflexivity|]. split; [lia|].
      repeat split; try reflexivity; lia.
    + cbn [fst snd m_currLogMetadata threads set_head head tail ver commit root
           entry_space data_space].
      fold md.
      split; [reflexivity|]. split; [lia|].
      split; [intros _; split; reflexivity|].
      repeat split; try reflexivity; lia.
Qed.

(** X1. trimByIndex(idx) never raises.  With [idx] outside [head, tail)
    it changes nothing at all; with [idx] inside it sets head to
    [idx + 1], commits the metadata and keeps tail, metadata.ver and the
    device contents.  Either way head does not move back, and on a log
    with [head <= tail] it does not pass tail. *)
Theorem trimByIndex_bounds (s : SPDKPersistLog) (idx : Z) :
  let md := m_currLogMetadata s in
  let s' := exec (trimByIndex idx) s in
  let md' := m_currLogMetadata s' in
  result (trimByIndex idx) s = Ret tt /\
  (idx < head md \/ tail md <= idx -> s' = s) /\
  (head md <= idx < tail md ->
   head md' = idx + 1 /\ root (threads s') = md') /\
  tail md' = tail md /\ ver md' = ver md /\
  entry_space (threads s') = entry_space (threads s) /\
  data_space (threads s') = data_space (threads s) /\
  head md <= head md' /\
  (head md <= tail md -> head md' <= tail md').
Proof. exact (trimByIndex_effect s idx). Qed.

Lemma trimByIndex_bounds_witness :
  let s := Scenario.scenario1 in
  let s' := exec (trimByIndex 1) s in
  (head (m_currLogMetadata s') = 1 + 1 /\
   root (threads s') = m_currLogMetadata s') /\
  head (m_currLogMetadata s') <= tail (m_currLogMetadata s') /\
  exec (trimByIndex 3) s = s.
Proof.
  split; [|split].
  - apply (trimByIndex_bounds Scenario.scenario1 1).
    vm_compute. split; [discriminate | reflexivity].
  - apply (trimByIndex_bounds Scenario.scenario1 1).
    vm_compute. discriminate.
  - apply (trimByIndex_bounds Scenario.scenario1 3).
    right. vm_compute. discriminate.
Defined.

(** ** applyLogTail *)

(** X8. When the bytes announce [nr >= 0] records and every record met
    carries a version [<= metadata.ver], applyLogTail skips them all: it
    returns with the log, the device and the bytes exactly as they were.
    Applying a tail that holds nothing new is a no-op. *)
Theorem applyLogTail_nothing_new (cfg : Config) (s : SPDKPersistLog)
        (v : bytes) (fuel : nat) :
  0 <= load_i64 v sizeof_int64 ->
  stale_records cfg v (ver (m_currLogMetadata s))
                (Z.to_nat (load_i64 v sizeof_int64)) (2 * sizeof_int64) ->
  (Z.to_nat (load_i64 v sizeof_int64) < fuel)%nat ->
  applyLogTail cfg fuel v s = (Ret v, s).
Proof.
  intros Hnr Hstale Hfuel.
  unfold applyLogTail.
  change (0 + sizeof_int64 + sizeof_int64) with (2 * sizeof_int64).
  change (0 + sizeof_int64) with sizeof_int64.
  rewrite <- (Z2Nat.id (load_i64 v sizeof_int64)) at 1 by exact Hnr.
  revert Hstale Hfuel.
  generalize (Z.to_nat (load_i64 v sizeof_int64)) as n.
  generalize (2 * sizeof_int64) as ofst.
  intros ofst n. revert ofst fuel.
  induction n as [|n IH]; intros ofst fuel Hstale Hfuel;
    (destruct fuel as [|fuel]; [lia|]).
  - unfold bind. cbn [while]. unfold bind, ret. cbn. reflexivity.
  - destruct Hstale as [Hver Hrest].
    specialize (IH _ fuel Hrest ltac:(lia)).
    unfold bind at 1. cbn [while]. unfold bind at 1.
    assert (Hnz : (Z.of_nat (S n) =? 0) = false) by (apply Z.eqb_neq; lia).
    rewrite Hnz. cbn [negb]. unfold_monad. cbn [fst snd].
    destruct (Z.leb_spec (LogEntry.ver v ofst) (ver (m_currLogMetadata s)));
      [|lia].
    replace (Z.of_nat (S n) - 1) with (Z.of_nat n) by lia.
    unfold bind at 1 in IH.
    destruct (while fuel _ _ s) as [[[[nr' ofst'] v']| |] s1];
      try discriminate IH.
    cbn [snd] in IH |- *. exact IH.
Qed.

Lemma applyLogTail_nothing_new_witness :
  applyLogTail Scenario.sample 8 Scenario.sent_bytes Scenario.fresh
  = (Ret Scenario.sent_bytes, Scenario.fresh).
Proof.
  apply (applyLogTail_nothing_new Scenario.sample Scenario.fresh
           Scenario.sent_bytes 8).
  - vm_compute. discriminate.
  - vm_compute. repeat split; discriminate.
  - vm_compute. lia.
Defined.

(** ** What append stores *)

(** The state an accepted append leaves, field by field. *)
Lemma append_effect (cfg : Config) (s : SPDKPersistLog)
      (pdata : bytes) (size ver_ : Z) (mhlc : HLC) :
  40 <= sizeof_LogEntry cfg ->
  0 <= tail (m_currLogMetadata s) < SPDK_LOG_ADDRESS_SPACE cfg ->
  result (append cfg pdata size ver_ mhlc) s = Ret tt ->
  let md := m_currLogMetadata s in
  let s' := exec (append cfg pdata size ver_ mhlc) s in
  let p := tail md * sizeof_LogEntry cfg in
  let E := entry_space (threads s) in
  let E' := entry_space (threads s') in
  let ofst' := if tail md - head md =? 0 then 0
               else u64 (entry_ofst cfg s (tail md - 1) + entry_dlen cfg s (tail md - 1)) in
  m_currLogMetadata s'
  = {| id := id md; head := head md; tail := tail md + 1; ver := ver_; inuse := inuse md |} /\
  (forall a, a + 8 <= p \/ p + 40 <= a -> load_u64 E' a = load_u64 E a) /\
  load_u64 E' (p + LogEntry.OFF_ver) = u64 ver_ /\
  load_u64 E' (p + LogEntry.OFF_hlc_r) = load_u64 E (p + LogEntry.OFF_hlc_r) /\
  load_u64 E' (p + LogEntry.OFF_hlc_l) = u64 (m_logic mhlc) /\
  load_u64 E' (p + LogEntry.OFF_dlen) = u64 size /\
  load_u64 E' (p + LogEntry.OFF_ofst) = ofst' /\
  (forall x, data_space (threads s') x
             = if (ofst' <=? x) && (x <? ofst' + u64 size)
               then pdata (x - ofst') else data_space (threads s) x).
Proof.
  intros HS Hslot Hret md s' p E E' ofst'.
  unfold E', s', exec. revert Hret. unfold result, append. unfold_monad.
  cbn [fst snd]. fold md. fold md in Hslot.
  destruct (ver_ <=? _); [discriminate|].
  destruct (_ >? _); [discriminate|]. intros _.
  assert (Hprev : (tail md - 1) * sizeof_LogEntry cfg + 40 <= p) by (unfold p; nia).
  unfold ofst', entry_ofst, entry_dlen. fold md E.
  unfold LogEntry.ofst, LogEntry.dlen,  LogEntry.OFF_hlc_r, LogEntry.OFF_hlc_l,
         LogEntry.OFF_ofst, LogEntry.OFF_ver, LogEntry.OFF_dlen in *.
  destruct (tail md - head md =? 0); run_facade; fold md E p;
    replace (Z.rem (tail md + 1 - 1) (SPDK_LOG_ADDRESS_SPACE cfg) * sizeof_LogEntry cfg)
      with p
      by (rewrite Z.add_simpl_r, Z.rem_small by lia; reflexivity);
    (split; [reflexivity|]);
    (split; [intros a Ha; rewrite load_u64_std_copy_self;
             rewrite !load_u64_store_64_other by lia; reflexivity|]);
    rewrite !load_u64_std_copy_self;
    (split; [rewrite !(load_u64_store_64_other _ _ (p + 0)) by lia;
             apply load_u64_store_64_same|]);
    (split; [rewrite !load_u64_store_64_other by lia; reflexivity|]);
    (split; [rewrite !(load_u64_store_64_other _ (p + 32)) by lia;
             apply load_u64_store_64_same|]);
    (split; [rewrite !(load_u64_store_64_other _ _ (p + 24)) by lia;
             apply load_u64_store_64_same|]);
    unfold LogEntry.ofst, LogEntry.OFF_ofst;
    rewrite ?(load_u64_store_64_other _ _ ((tail md - 1) * sizeof_LogEntry cfg + 32)),
            ?(load_u64_store_64_other _ _ ((tail md - 1) * sizeof_LogEntry cfg + 24))
      by lia;
    rewrite ?(load_u64_store_64_other _ _ (p + 24)) by lia;
    rewrite !load_u64_store_64_same;
    change (u64 0) with 0;
    (split; [reflexivity|]);
    intros x; unfold std_copy; rewrite ?Z.add_0_l; reflexivity.
Qed.

Lemma load_bytes_shifted (m m' : bytes) (a b : Z) (n : nat) :
  (forall k, 0 <= k < Z.of_nat n -> m (a + k) = m' (b + k)) ->
  load_bytes m a n = load_bytes m' b n.
Proof.
  intros H. unfold load_bytes. apply map_ext_in.
  intros k Hk. apply in_seq in Hk. apply H. lia.
Qed.

(** An append that returns has passed the version guard. *)
Lemma append_accepted_version (cfg : Config) (s : SPDKPersistLog)
      (pdata : bytes) (size ver_ : Z) (mhlc : HLC) :
  result (append cfg pdata size ver_ mhlc) s = Ret tt ->
  ver (m_currLogMetadata s) < ver_.
Proof.
  intros Hret.
  destruct (Z.le_gt_cases ver_ (ver (m_currLogMetadata s))) as [Hle|Hgt]; [|lia].
  unfold result in Hret. rewrite append_regression in Hret by exact Hle.
  discriminate Hret.
Qed.

(** X9. An accepted append at index [idx = tail] (with
    [sizeof(LogEntry) >= 40], [tail] below SPDK_LOG_ADDRESS_SPACE, [ver]
    an int64 and [size] a uint64) stores what it was given: entry [idx]
    then has version [ver], dlen [size], an ofst of 0 on an empty log and
    of the previous entry's [ofst + dlen] otherwise, and its payload, the
    [size] bytes at that ofst of the data stream, are the first [size]
    bytes of [pdata]; getEntryByIndex(idx) returns the pointer to them.
    head is kept, tail grows by one, metadata.ver becomes [ver], and the
    fields of every other entry are as before. *)
Theorem append_stores_entry (cfg : Config) (s : SPDKPersistLog)
        (pdata : bytes) (size ver_ : Z) (mhlc : HLC) :
  40 <= sizeof_LogEntry cfg ->
  0 <= tail (m_currLogMetadata s) < SPDK_LOG_ADDRESS_SPACE cfg ->
  int64_range ver_ ->
  0 <= size < 2 ^ 64 ->
  result (append cfg pdata size ver_ mhlc) s = Ret tt ->
  let md := m_currLogMetadata s in
  let s' := exec (append cfg pdata size ver_ mhlc) s in
  let idx := tail md in
  head (m_currLogMetadata s') = head md /\
  tail (m_currLogMetadata s') = idx + 1 /\
  ver (m_currLogMetadata s') = ver_ /\
  entry_ver cfg s' idx = ver_ /\
  entry_dlen cfg s' idx = size /\
  entry_ofst cfg s' idx
  = (if idx - head md =? 0 then 0
     else u64 (entry_ofst cfg s (idx - 1) + entry_dlen cfg s (idx - 1))) /\
  entry_payload cfg s' idx = load_bytes pdata 0 (Z.to_nat size) /\
  result (getEntryByIndex cfg idx) s' = Ret (entry_ofst cfg s' idx) /\
  (forall i, i <> idx ->
     entry_ver cfg s' i = entry_ver cfg s i /\
     entry_hlc_r cfg s' i = entry_hlc_r cfg s i /\
     entry_hlc_l cfg s' i = entry_hlc_l cfg s i /\
     entry_dlen cfg s' i = entry_dlen cfg s i /\
     entry_ofst cfg s' i = entry_ofst cfg s i).
Proof.
  intros HS Hslot Hver Hsize Hret md s' idx.
  destruct (append_effect cfg s pdata size ver_ mhlc HS Hslot Hret)
    as (Hmd & Hframe & Fver & _ & _ & Fdlen & Fofst & Hdata).
  fold md s' idx in Hmd, Hframe, Fver, Fdlen, Fofst, Hdata.
  assert (Usize : u64 size = size) by (unfold u64; apply Z.mod_small; lia).
  rewrite Usize in *.
  assert (Edlen : entry_dlen cfg s' idx = size) by exact Fdlen.
  assert (Eofst : entry_ofst cfg s' idx
                  = (if idx - head md =? 0 then 0
                     else u64 (entry_ofst cfg s (idx - 1) + entry_dlen cfg s (idx - 1))))
    by exact Fofst.
  rewrite Hmd. cbn [head tail ver].
  split; [reflexivity|]. split; [reflexivity|]. split; [reflexivity|].
  split.
  { unfold entry_ver, LogEntry.ver, load_i64. fold idx. rewrite Fver.
    apply s64_u64, Hver. }
  split; [exact Edlen|]. split; [exact Eofst|].
  split.
  { unfold entry_payload. rewrite Edlen.
    apply load_bytes_shifted. intros k Hk.
    rewrite Hdata. rewrite <- Eofst.
    rewrite Z2Nat.id in Hk by lia.
    destruct (Z.leb_spec (entry_ofst cfg s' idx) (entry_ofst cfg s' idx + k)); [|lia].
    destruct (Z.ltb_spec (entry_ofst cfg s' idx + k) (entry_ofst cfg s' idx + size));
      [|lia].
    cbn [andb]. f_equal. lia. }
  split; [reflexivity|].
  intros i Hi.
  assert (Hdis : i * sizeof_LogEntry cfg + sizeof_LogEntry cfg
                 <= idx * sizeof_LogEntry cfg \/
                 idx * sizeof_LogEntry cfg + sizeof_LogEntry cfg
                 <= i * sizeof_LogEntry cfg) by nia.
  unfold entry_ver, entry_hlc_r, entry_hlc_l, entry_dlen, entry_ofst,
         LogEntry.ver, LogEntry.hlc_r, LogEntry.hlc_l, LogEntry.dlen, LogEntry.ofst,
         load_i64, LogEntry.OFF_ver, LogEntry.OFF_hlc_r, LogEntry.OFF_hlc_l,
         LogEntry.OFF_dlen, LogEntry.OFF_ofst.
  rewrite !Hframe by lia. repeat split; reflexivity.
Qed.

Lemma append_stores_entry_witness :
  let cfg := Scenario.sample in
  let s := Scenario.scenario1 in
  let app := append cfg (of_list [Byte.x64]) 1 4 (Scenario.hlc 103 0) in
  let md := m_currLogMetadata s in
  let s' := exec app s in
  let idx := tail md in
  head (m_currLogMetadata s') = head md /\
  tail (m_currLogMetadata s') = idx + 1 /\
  ver (m_currLogMetadata s') = 4 /\
  entry_ver cfg s' idx = 4 /\
  entry_dlen cfg s' idx = 1 /\
  entry_ofst cfg s' idx
  = (if idx - head md =? 0 then 0
     else u64 (entry_ofst cfg s (idx - 1) + entry_dlen cfg s (idx - 1))) /\
  entry_payload cfg s' idx = load_bytes (of_list [Byte.x64]) 0 (Z.to_nat 1) /\
  result (getEntryByIndex cfg idx) s' = Ret (entry_ofst cfg s' idx) /\
  (forall i, i <> idx ->
     entry_ver cfg s' i = entry_ver cfg s i /\
     entry_hlc_r cfg s' i = entry_hlc_r cfg s i /\
     entry_hlc_l cfg s' i = entry_hlc_l cfg s i /\
     entry_dlen cfg s' i = entry_dlen cfg s i /\
     entry_ofst cfg s' i = entry_ofst cfg s i).
Proof.
  apply (append_stores_entry Scenario.sample Scenario.scenario1
           (of_list [Byte.x64]) 1 4 (Scenario.hlc 103 0)).
  - vm_compute. discriminate.
  - vm_compute. split; [discriminate | reflexivity].
  - unfold int64_range. vm_compute. split; [discriminate | reflexivity].
  - vm_compute. split; [discriminate | reflexivity].
  - vm_compute. reflexivity.
Defined.

(** ** The version order of the live entries *)


(** The new last entry is newer than every entry before it. *)
Lemma append_version_order (cfg : Config) (s : SPDKPersistLog)
        (pdata : bytes) (size ver_ : Z) (mhlc : HLC) :
  40 <= sizeof_LogEntry cfg ->
  0 <= tail (m_currLogMetadata s) < SPDK_LOG_ADDRESS_SPACE cfg ->
  int64_range ver_ ->
  versions_sorted cfg s -> versions_bounded cfg s ->
  result (append cfg pdata size ver_ mhlc) s = Ret tt ->
  let s' := exec (append cfg pdata size ver_ mhlc) s in
  versions_sorted cfg s' /\ versions_bounded cfg s' /\
  entry_ver cfg s' (tail (m_currLogMetadata s)) = ver (m_currLogMetadata s').
Proof.
  intros HS Hslot Hver Hsorted Hbound Hret s'.
  pose proof (append_accepted_version cfg s pdata size ver_ mhlc Hret) as Hgt.
  destruct (append_effect cfg s pdata size ver_ mhlc HS Hslot Hret)
    as (Hmd & Hframe & Fver & _).
  fold s' in Hmd, Hframe, Fver.
  set (idx := tail (m_currLogMetadata s)) in *.
  assert (Enew : entry_ver cfg s' idx = ver_).
  { unfold entry_ver, LogEntry.ver, load_i64. rewrite Fver. apply s64_u64, Hver. }
  assert (Eold : forall i, i <> idx -> entry_ver cfg s' i = entry_ver cfg s i).
  { intros i Hi.
    assert (Hdis : i * sizeof_LogEntry cfg + sizeof_LogEntry cfg
                   <= idx * sizeof_LogEntry cfg \/
                   idx * sizeof_LogEntry cfg + sizeof_LogEntry cfg
                   <= i * sizeof_LogEntry cfg) by nia.
    unfold entry_ver, LogEntry.ver, load_i64, LogEntry.OFF_ver.
    rewrite Hframe by lia. reflexivity. }
  assert (Hlive : forall i, live s' i -> i <> idx -> live s i).
  { intros i Hi Hne. unfold live in *. rewrite Hmd in Hi. cbn [head tail] in Hi.
    fold idx. lia. }
  split; [|split].
  - intros i j Hi Hj Hij.
    destruct (Z.eq_dec j idx) as [->|Hj'].
    + assert (Hi' : i <> idx) by lia.
      rewrite Enew, (Eold i Hi').
      pose proof (Hbound i (Hlive i Hi Hi')). lia.
    + assert (Hi' : i <> idx).
      { unfold live in Hj. rewrite Hmd in Hj. cbn [head tail] in Hj.
        fold idx in Hj. lia. }
      rewrite (Eold i Hi'), (Eold j Hj'). apply Hsorted; auto.
  - intros i Hi. rewrite Hmd. cbn [ver].
    destruct (Z.eq_dec i idx) as [->|Hi'].
    + rewrite Enew. lia.
    + rewrite (Eold i Hi'). pose proof (Hbound i (Hlive i Hi Hi')). lia.
  - rewrite Enew, Hmd. reflexivity.
Qed.

(** X10. append keeps the version half of the log invariant: if the
    live versions increase strictly and none exceeds metadata.ver, the
    same holds after an accepted append (with [sizeof(LogEntry) >= 40],
    [tail] below SPDK_LOG_ADDRESS_SPACE and [ver] an int64), the new last
    entry carrying the new metadata.ver. *)
Theorem append_keeps_version_order (cfg : Config) (s : SPDKPersistLog)
        (pdata : bytes) (size ver_ : Z) (mhlc : HLC) :
  40 <= sizeof_LogEntry cfg ->
  0 <= tail (m_currLogMetadata s) < SPDK_LOG_ADDRESS_SPACE cfg ->
  int64_range ver_ ->
  versions_sorted cfg s -> versions_bounded cfg s ->
  result (append cfg pdata size ver_ mhlc) s = Ret tt ->
  let s' := exec (append cfg pdata size ver_ mhlc) s in
  versions_sorted cfg s' /\ versions_bounded cfg s' /\
  entry_ver cfg s' (tail (m_currLogMetadata s)) = ver (m_currLogMetadata s').
Proof. exact (append_version_order cfg s pdata size ver_ mhlc). Qed.

Lemma append_keeps_version_order_witness :
  let cfg := Scenario.sample in
  let s := Scenario.scenario1 in
  let s' := exec (append cfg (of_list [Byte.x64]) 1 4 (Scenario.hlc 103 0)) s in
  versions_sorted cfg s' /\ versions_bounded cfg s' /\
  entry_ver cfg s' (tail (m_currLogMetadata s)) = ver (m_currLogMetadata s').
Proof.
  apply (append_keeps_version_order Scenario.sample Scenario.scenario1
           (of_list [Byte.x64]) 1 4 (Scenario.hlc 103 0)).
  - vm_compute. discriminate.
  - vm_compute. split; [discriminate | reflexivity].
  - unfold int64_range. vm_compute. split; [discriminate | reflexivity].
  - scenario1_sorted.
  - scenario1_bounded.
  - vm_compute. reflexivity.
Defined.



(** ** append, then looking the entry up *)

Lemma append_payload (cfg : Config) (s : SPDKPersistLog)
      (pdata : bytes) (size ver_ : Z) (mhlc : HLC) :
  40 <= sizeof_LogEntry cfg ->
  0 <= tail (m_currLogMetadata s) < SPDK_LOG_ADDRESS_SPACE cfg ->
  0 <= size < 2 ^ 64 ->
  result (append cfg pdata size ver_ mhlc) s = Ret tt ->
  let s' := exec (append cfg pdata size ver_ mhlc) s in
  load_bytes (data_space (threads s'))
             (entry_ofst cfg s' (tail (m_currLogMetadata s))) (Z.to_nat size)
  = load_bytes pdata 0 (Z.to_nat size).
Proof.
  intros HS Hslot Hsize Hret s'.
  destruct (append_effect cfg s pdata size ver_ mhlc HS Hslot Hret)
    as (_ & _ & _ & _ & _ & _ & Fofst & Hdata).
  fold s' in Fofst, Hdata.
  assert (Usize : u64 size = size) by (unfold u64; apply Z.mod_small; lia).
  rewrite Usize in Hdata.
  set (o := entry_ofst cfg s' (tail (m_currLogMetadata s))).
  assert (Eo : o = (if tail (m_currLogMetadata s) - head (m_currLogMetadata s) =? 0
                    then 0
                    else u64 (entry_ofst cfg s (tail (m_currLogMetadata s) - 1)
                              + entry_dlen cfg s (tail (m_currLogMetadata s) - 1))))
    by exact Fofst.
  apply load_bytes_shifted. intros k Hk.
  rewrite Hdata, <- Eo.
  rewrite Z2Nat.id in Hk by lia.
  destruct (Z.leb_spec o (o + k)); [|lia].
  destruct (Z.ltb_spec (o + k) (o + size)); [|lia].
  cbn [andb]. f_equal. lia.
Qed.

(** X12. Insert, then look up by version: after an accepted append of
    version [ver] to a log with [0 <= head <= tail] whose live versions
    increase strictly and stay within metadata.ver, getVersionIndex(ver)
    returns the index the entry was appended at, the old tail. *)
Theorem append_then_getVersionIndex (cfg : Config) (s : SPDKPersistLog)
        (pdata : bytes) (size ver_ : Z) (mhlc : HLC) (fuel : nat) :
  40 <= sizeof_LogEntry cfg ->
  0 <= head (m_currLogMetadata s) <= tail (m_currLogMetadata s) ->
  tail (m_currLogMetadata s) < SPDK_LOG_ADDRESS_SPACE cfg ->
  int64_range ver_ ->
  versions_sorted cfg s -> versions_bounded cfg s ->
  result (append cfg pdata size ver_ mhlc) s = Ret tt ->
  (Z.to_nat (tail (m_currLogMetadata s) + 1 - head (m_currLogMetadata s)) < fuel)%nat ->
  let s' := exec (append cfg pdata size ver_ mhlc) s in
  result (getVersionIndex cfg fuel ver_) s' = Ret (tail (m_currLogMetadata s)).
Proof.
  intros HS Hh Hslot Hver Hsorted Hbound Hret Hfuel s'.
  assert (Hslot' : 0 <= tail (m_currLogMetadata s) < SPDK_LOG_ADDRESS_SPACE cfg)
    by lia.
  destruct (append_version_order cfg s pdata size ver_ mhlc
              HS Hslot' Hver Hsorted Hbound Hret) as (Hsorted' & _ & Hlast).
  destruct (append_effect cfg s pdata size ver_ mhlc HS Hslot' Hret) as (Hmd & _).
  fold s' in Hsorted', Hlast, Hmd.
  set (idx := tail (m_currLogMetadata s)) in *.
  assert (Hlive : live s' idx)
    by (unfold live; rewrite Hmd; cbn [head tail]; lia).
  assert (Enew : entry_ver cfg s' idx = ver_)
    by (rewrite Hlast, Hmd; reflexivity).
  destruct (getVersionIndex_search cfg s' ver_ fuel)
    as (r & l & Hrun & _ & Hcase).
  - rewrite Hmd. cbn [head]. lia.
  - exact Hsorted'.
  - rewrite Hmd. cbn [head tail]. exact Hfuel.
  - unfold result. rewrite Hrun. cbn [fst].
    destruct Hcase as [(i & Hi & Hvi & ->) | (Hnone & _)].
    + f_equal.
      destruct (Z.lt_trichotomy i idx) as [Hlt | [Heq | Hgt]]; [|exact Heq|].
      * pose proof (Hsorted' i idx Hi Hlive Hlt). lia.
      * pose proof (Hsorted' idx i Hlive Hi Hgt). lia.
    + exfalso. exact (Hnone idx Hlive Enew).
Qed.

(** X13. Insert, then read by version: after an accepted append of
    [size] bytes [pdata] under version [ver] to such a log (with
    [tail + 1 <= 2^31]), getEntry(ver) returns the pointer into the data
    stream at which the new entry's payload starts, and the [size] bytes
    there are the first [size] bytes of [pdata]. *)
Theorem append_then_getEntry (cfg : Config) (s : SPDKPersistLog)
        (pdata : bytes) (size ver_ : Z) (mhlc : HLC) (fuel : nat) :
  40 <= sizeof_LogEntry cfg ->
  0 <= head (m_currLogMetadata s) <= tail (m_currLogMetadata s) ->
  tail (m_currLogMetadata s) < SPDK_LOG_ADDRESS_SPACE cfg ->
  tail (m_currLogMetadata s) + 1 <= 2 ^ 31 ->
  int64_range ver_ ->
  0 <= size < 2 ^ 64 ->
  versions_sorted cfg s -> versions_bounded cfg s ->
  result (append cfg pdata size ver_ mhlc) s = Ret tt ->
  (Z.to_nat (tail (m_currLogMetadata s) + 1 - head (m_currLogMetadata s)) < fuel)%nat ->
  let s' := exec (append cfg pdata size ver_ mhlc) s in
  exists p,
    result (getEntry cfg fuel ver_) s' = Ret p /\
    p = entry_ofst cfg s' (tail (m_currLogMetadata s)) /\
    load_bytes (data_space (threads (exec (getEntry cfg fuel ver_) s'))) p
               (Z.to_nat size)
    = load_bytes pdata 0 (Z.to_nat size).
Proof.
  intros HS Hh Hslot Hint Hver Hsize Hsorted Hbound Hret Hfuel s'.
  assert (Hslot' : 0 <= tail (m_currLogMetadata s) < SPDK_LOG_ADDRESS_SPACE cfg)
    by lia.
  destruct (append_version_order cfg s pdata size ver_ mhlc
              HS Hslot' Hver Hsorted Hbound Hret) as (Hsorted' & _ & Hlast).
  destruct (append_effect cfg s pdata size ver_ mhlc HS Hslot' Hret) as (Hmd & _).
  pose proof (append_payload cfg s pdata size ver_ mhlc HS Hslot' Hsize Hret)
    as Hpay.
  fold s' in Hsorted', Hlast, Hmd, Hpay.
  set (idx := tail (m_currLogMetadata s)) in *.
  assert (Hlive : live s' idx)
    by (unfold live; rewrite Hmd; cbn [head tail]; lia).
  assert (Enew : entry_ver cfg s' idx = ver_)
    by (rewrite Hlast, Hmd; reflexivity).
  destruct (lower_bound_search cfg s' ver_ fuel)
    as (r & l & Hlb & (_ & Hes & Hds & _) & Hr & Hcase).
  - rewrite Hmd. cbn [head tail]. lia.
  - rewrite Hmd. cbn [tail]. lia.
  - exact Hsorted'.
  - rewrite Hmd. cbn [head tail]. exact Hfuel.
  - assert (Er : r = idx).
    { rewrite Hmd in Hr, Hcase. cbn [head tail] in Hr, Hcase.
      destruct Hcase as [(Hrt & Hlo & Hhi) | (_ & _ & Hall)].
      - destruct (Z.lt_ge_cases r idx) as [Hlt|Hge]; [|lia].
        pose proof (Hhi idx Hlive Hlt). lia.
      - pose proof (Hall idx Hlive). lia. }
    subst r.
    assert (Hget : getEntry cfg fuel ver_ s' = read_data cfg idx l)
      by (unfold getEntry, bind; rewrite Hlb; reflexivity).
    exists (entry_ofst cfg s' idx).
    unfold result, exec. rewrite Hget.
    unfold read_data. do 3 unfold_monad.
    cbn [fst snd threads entry_space data_space log_access].
    unfold entry_ofst. rewrite Hes, Hds.
    split; [reflexivity|]. split; [reflexivity|]. exact Hpay.
Qed.

Lemma append_then_getVersionIndex_witness :
  let cfg := Scenario.sample in
  let s := Scenario.scenario1 in
  let s' := exec (append cfg (of_list [Byte.x64]) 1 4 (Scenario.hlc 103 0)) s in
  result (getVersionIndex cfg 8 4) s' = Ret (tail (m_currLogMetadata s)).
Proof.
  apply (append_then_getVersionIndex Scenario.sample Scenario.scenario1
           (of_list [Byte.x64]) 1 4 (Scenario.hlc 103 0) 8).
  - vm_compute. discriminate.
  - vm_compute. split; discriminate.
  - vm_compute. reflexivity.
  - unfold int64_range. vm_compute. split; [discriminate | reflexivity].
  - scenario1_sorted.
  - scenario1_bounded.
  - vm_compute. reflexivity.
  - vm_compute. lia.
Defined.

Lemma append_then_getEntry_witness :
  let cfg := Scenario.sample in
  let s := Scenario.scenario1 in
  let s' := exec (append cfg (of_list [Byte.x64]) 1 4 (Scenario.hlc 103 0)) s in
  exists p,
    result (getEntry cfg 8 4) s' = Ret p /\
    p = entry_ofst cfg s' (tail (m_currLogMetadata s)) /\
    load_bytes (data_space (threads (exec (getEntry cfg 8 4) s'))) p (Z.to_nat 1)
    = load_bytes (of_list [Byte.x64]) 0 (Z.to_nat 1).
Proof.
  apply (append_then_getEntry Scenario.sample Scenario.scenario1
           (of_list [Byte.x64]) 1 4 (Scenario.hlc 103 0) 8).
  - vm_compute. discriminate.
  - vm_compute. split; discriminate.
  - vm_compute. reflexivity.
  - vm_compute. discriminate.
  - unfold int64_range. vm_compute. split; [discriminate | reflexivity].
  - vm_compute. split; [discriminate | reflexivity].
  - scenario1_sorted.
  - scenario1_bounded.
  - vm_compute. reflexivity.
  - vm_compute. lia.
Defined.

(** ** advanceVersion *)

(** X14. advanceVersion(ver) is accepted exactly when [ver] exceeds
    metadata.ver.  When accepted it sets metadata.ver to [ver], commits
    the metadata and keeps head, tail and the device contents; afterwards
    getLatestVersion() returns [ver], and an append or advanceVersion
    with a version [<= ver] raises VersionRegression. *)
Theorem advanceVersion_moves_forward (cfg : Config) (s : SPDKPersistLog)
        (ver_ ver2 : Z) (pdata : bytes) (size : Z) (mhlc : HLC) :
  let md := m_currLogMetadata s in
  let s' := exec (advanceVersion ver_) s in
  (result (advanceVersion ver_) s = Ret tt <-> ver md < ver_) /\
  (ver md < ver_ ->
   m_currLogMetadata s'
   = {| id := id md; head := head md; tail := tail md; ver := ver_;
        inuse := inuse md |} /\
   root (threads s') = m_currLogMetadata s' /\
   entry_space (threads s') = entry_space (threads s) /\
   data_space (threads s') = data_space (threads s) /\
   result getLatestVersion s' = Ret ver_ /\
   (ver2 <= ver_ ->
    result (append cfg pdata size ver2 mhlc) s' = Throw VersionRegression /\
    result (advanceVersion ver2) s' = Throw VersionRegression)).
Proof.
  intros md s'. unfold s', result, exec, advanceVersion.
  do 3 unfold_monad. cbn [fst snd]. fold md.
  destruct (Z.leb_spec ver_ (ver md)) as [Hle|Hgt].
  - split; [split; [discriminate | lia] | lia].
  - split; [split; [intros _; exact Hgt | reflexivity]|]. intros _.
    cbn [fst snd m_currLogMetadata threads set_ver commit root entry_space
         data_space].
    split; [reflexivity|]. split; [reflexivity|].
    split; [reflexivity|]. split; [reflexivity|].
    split; [reflexivity|]. intros H2.
    split.
    + rewrite append_regression by (cbn; exact H2). reflexivity.
    + cbn [ver set_ver]. destruct (Z.leb_spec ver2 ver_); [reflexivity | lia].
Qed.

Lemma advanceVersion_moves_forward_witness :
  let s := Scenario.scenario1 in
  let s' := exec (advanceVersion 9) s in
  result (advanceVersion 9) s = Ret tt /\
  result getLatestVersion s' = Ret 9 /\
  result (append Scenario.sample zeroed 1 9 (Scenario.hlc 103 0)) s'
  = Throw VersionRegression.
Proof.
  destruct (advanceVersion_moves_forward Scenario.sample Scenario.scenario1
              9 9 zeroed 1 (Scenario.hlc 103 0)) as (Hacc & Heff).
  assert (Hlt : ver (m_currLogMetadata Scenario.scenario1) < 9)
    by (vm_compute; reflexivity).
  split; [apply Hacc; exact Hlt|].
  destruct (Heff Hlt) as (_ & _ & _ & _ & Hlatest & Hrej).
  split; [exact Hlatest|].
  apply Hrej. lia.
Defined.

(** ** Serializing a non-empty log *)

(** X15. On a non-empty log with [0 <= head < tail <= 2^31] (metadata.ver
    an int64, INVALID_INDEX outside [head - 1, tail - 1]), to_bytes(buf,
    ver) returns for every [ver]; the header it writes carries
    metadata.ver and an entry count between 1 and [tail - head + 1], never
    0, also for [ver >= metadata.ver]; no byte of [buf] after the header
    is written, and the metadata is as before. *)
Theorem to_bytes_sends_an_entry (cfg : Config) (s : SPDKPersistLog)
        (fuel : nat) (buf : bytes) (ver_ : Z) :
  0 <= head (m_currLogMetadata s) < tail (m_currLogMetadata s) ->
  tail (m_currLogMetadata s) <= 2 ^ 31 ->
  int64_range (ver (m_currLogMetadata s)) ->
  INVALID_INDEX cfg < head (m_currLogMetadata s) - 1 \/
  tail (m_currLogMetadata s) <= INVALID_INDEX cfg ->
  (Z.to_nat (tail (m_currLogMetadata s) - head (m_currLogMetadata s) + 1) < fuel)%nat ->
  let md := m_currLogMetadata s in
  exists n buf',
    result (to_bytes cfg fuel buf ver_) s = Ret (n, buf') /\
    load_i64 buf' 0 = ver md /\
    1 <= load_i64 buf' sizeof_int64 <= tail md - head md + 1 /\
    (forall a, a < 0 \/ 2 * sizeof_int64 <= a -> buf' a = buf a) /\
    m_currLogMetadata (exec (to_bytes cfg fuel buf ver_) s) = md.
Proof.
  intros Hh Ht Hver Hinv Hfuel md. fold md in Hh, Ht, Hver, Hinv, Hfuel.
  destruct (upper_bound_search cfg s ver_ fuel Hh Ht ltac:(fold md; lia))
    as (r & l & Hub & (Hmd & _) & Hr & _). fold md in Hmd, Hr.
  assert (Htb : exists n l',
            to_bytes cfg fuel buf ver_ s
            = (Ret (n, store_64 (store_64 buf 0 (ver md)) (0 + sizeof_int64)
                                (tail md - r)), l') /\
            m_currLogMetadata l' = md).
  { unfold to_bytes. unfold bind at 1. rewrite Hub.
    unfold bind at 1. unfold METADATA at 1. cbn [fst snd]. rewrite Hmd.
    destruct (Z.eqb_spec r (INVALID_INDEX cfg)) as [E|E]; [lia|]. cbn [negb].
    pose (I := fun (st : Z * Z) (l' : SPDKPersistLog) =>
      m_currLogMetadata l' = md /\ r <= fst st <= tail md).
    pose (Q := fun (st : Z * Z) (l' : SPDKPersistLog) => m_currLogMetadata l' = md).
    pose (measure := fun (st : Z * Z) => Z.to_nat (tail md - fst st)).
    match goal with |- context [while fuel ?body ?st0] =>
      destruct (while_rule body I Q measure) with (fuel := fuel) (st := st0) (l := l)
        as ([idx' ofst'] & l' & Hrun & HQ)
    end.
    - intros [index ofst] l0 (Hmd0 & Hidx). cbn [fst] in Hidx.
      do 3 unfold_monad. cbn [fst snd m_currLogMetadata]. rewrite Hmd0.
      destruct (Z.ltb_spec index (tail md)) as [Hlt|Hge].
      + eexists _, _. split; [reflexivity|]. unfold I, measure. cbn [fst snd].
        split; [split; [exact Hmd0 | lia] | lia].
      + eexists _, _. split; [reflexivity|]. exact Hmd0.
    - split; [exact Hmd | cbn [fst]; lia].
    - unfold measure. cbn [fst]. lia.
    - unfold bind at 1. rewrite Hrun. unfold ret. cbn [fst snd].
      eexists _, _. split; [reflexivity | exact HQ]. }
  destruct Htb as (n & l' & Htb & Hmd').
  unfold result, exec. rewrite Htb. cbn [fst snd].
  eexists _, _. split; [reflexivity|].
  unfold sizeof_int64. cbn [Z.add Z.mul Pos.mul].
  split.
  { rewrite load_i64_store_64_other by lia.
    apply load_i64_store_64_same, Hver. }
  split.
  { rewrite load_i64_store_64_same by (unfold int64_range; lia). lia. }
  split.
  { intros a Ha. rewrite !store_64_outside by lia. reflexivity. }
  exact Hmd'.
Qed.

Lemma to_bytes_sends_an_entry_witness :
  let md := m_currLogMetadata Scenario.scenario1 in
  exists n buf',
    result (to_bytes Scenario.sample 8 zeroed 7) Scenario.scenario1 = Ret (n, buf') /\
    load_i64 buf' 0 = ver md /\
    1 <= load_i64 buf' sizeof_int64 <= tail md - head md + 1 /\
    (forall a, a < 0 \/ 2 * sizeof_int64 <= a -> buf' a = zeroed a) /\
    m_currLogMetadata (exec (to_bytes Scenario.sample 8 zeroed 7) Scenario.scenario1)
    = md.
Proof.
  apply (to_bytes_sends_an_entry Scenario.sample Scenario.scenario1 8 zeroed 7).
  - vm_compute. split; [discriminate | reflexivity].
  - vm_compute. discriminate.
  - unfold int64_range. vm_compute. split; [discriminate | reflexivity].
  - right. vm_compute. discriminate.
  - vm_compute. lia.
Defined.

(** X16. bytes_size only reads: on a non-empty log with
    [0 <= head < tail <= 2^31] it returns a size for every [ver], having
    called read_entry at indices in [head - 1, tail) only, and leaves the
    metadata, the entries and the payloads as they were. *)
Theorem bytes_size_only_reads (cfg : Config) (s : SPDKPersistLog)
        (fuel : nat) (ver_ : Z) :
  0 <= head (m_currLogMetadata s) < tail (m_currLogMetadata s) ->
  tail (m_currLogMetadata s) <= 2 ^ 31 ->
  (Z.to_nat (tail (m_currLogMetadata s) - head (m_currLogMetadata s) + 1) < fuel)%nat ->
  exists n s',
    bytes_size cfg fuel ver_ s = (Ret n, s') /\
    only_reads (fun i => head (m_currLogMetadata s) - 1 <= i
                         < tail (m_currLogMetadata s)) s s'.
Proof.
  intros Hh Ht Hfuel.
  set (md := m_currLogMetadata s) in *.
  destruct (upper_bound_search cfg s ver_ fuel Hh Ht ltac:(fold md; lia))
    as (r & l & Hub & Hro & Hr & _). fold md in Hro, Hr.
  unfold bytes_size. unfold bind at 1. rewrite Hub.
  destruct (r =? INVALID_INDEX cfg); cbn [negb];
    [eexists _, _; split; [reflexivity | exact Hro]|].
  set (P := fun i => head md - 1 <= i < tail md) in *.
  pose (I := fun (st : Z * Z) (l' : SPDKPersistLog) =>
    only_reads P s l' /\ r <= fst st).
  pose (Q := fun (st : Z * Z) (l' : SPDKPersistLog) => only_reads P s l').
  pose (measure := fun (st : Z * Z) => Z.to_nat (tail md - fst st)).
  match goal with |- context [while fuel ?body ?st0] =>
    destruct (while_rule body I Q measure) with (fuel := fuel) (st := st0) (l := l)
      as ([idx' n] & l' & Hrun & HQ)
  end.
  - intros [index bsize] l0 (Hro0 & Hidx). cbn [fst] in Hidx.
    assert (Hmd0 : m_currLogMetadata l0 = md) by apply Hro0.
    do 3 unfold_monad. cbn [fst snd m_currLogMetadata]. rewrite Hmd0.
    destruct (Z.ltb_spec index (tail md)) as [Hlt|Hge].
    + eexists _, _. split; [reflexivity|]. unfold I, measure. cbn [fst snd].
      split; [split; [|lia] | lia].
      apply (only_reads_touch P s l0 index Hro0). unfold P. lia.
    + eexists _, _. split; [reflexivity|]. exact Hro0.
  - split; [exact Hro | cbn [fst]; lia].
  - unfold measure. cbn [fst]. lia.
  - unfold bind at 1. rewrite Hrun. unfold ret. cbn [snd].
    eexists _, _. split; [reflexivity | exact HQ].
Qed.

Lemma bytes_size_only_reads_witness :
  exists n s',
    bytes_size Scenario.sample 8 1 Scenario.scenario1 = (Ret n, s') /\
    only_reads (fun i => head (m_currLogMetadata Scenario.scenario1) - 1 <= i
                         < tail (m_currLogMetadata Scenario.scenario1))
               Scenario.scenario1 s'.
Proof.
  apply (bytes_size_only_reads Scenario.sample Scenario.scenario1 8 1).
  - vm_compute. split; [discriminate | reflexivity].
  - vm_compute. discriminate.
  - vm_compute. lia.
Defined.

(** ** The searches by clock *)










(** ** getEntry *)

(** X20. Lookup by version: on a log with [0 <= head <= tail <= 2^31]
    whose live versions increase strictly, getEntry(ver) for the version
    of a live entry [i] returns the pointer into the data stream at which
    the payload of entry [i] starts, its ofst; it raises nothing and only
    reads. *)
Theorem getEntry_finds_payload (cfg : Config) (s : SPDKPersistLog)
        (i : Z) (fuel : nat) :
  0 <= head (m_currLogMetadata s) <= tail (m_currLogMetadata s) ->
  tail (m_currLogMetadata s) <= 2 ^ 31 ->
  versions_sorted cfg s ->
  live s i ->
  (Z.to_nat (tail (m_currLogMetadata s) - head (m_currLogMetadata s)) < fuel)%nat ->
  let ver_ := entry_ver cfg s i in
  let s' := exec (getEntry cfg fuel ver_) s in
  result (getEntry cfg fuel ver_) s = Ret (entry_ofst cfg s i) /\
  m_currLogMetadata s' = m_currLogMetadata s /\
  entry_space (threads s') = entry_space (threads s) /\
  data_space (threads s') = data_space (threads s).
Proof.
  intros Hh Ht Hsorted Hi Hfuel ver_ s'.
  destruct (lower_bound_search cfg s ver_ fuel Hh Ht Hsorted Hfuel)
    as (r & l & Hlb & (Hmd & Hes & Hds & _) & Hr & Hcase).
  assert (Er : r = i).
  { destruct Hcase as [(Hrt & Hlo & Hhi) | (_ & _ & Hall)].
    - destruct (Z.lt_trichotomy r i) as [Hlt | [Heq | Hgt]]; [|exact Heq|].
      + pose proof (Hhi i Hi Hlt). unfold ver_ in *. lia.
      + assert (Hlive : live s r) by (unfold live in *; lia).
        pose proof (Hsorted i r Hi Hlive Hgt).
        pose proof (Hlo r Hlive ltac:(lia)). unfold ver_ in *. lia.
    - pose proof (Hall i Hi). unfold ver_ in *. lia. }
  subst r.
  assert (Hget : getEntry cfg fuel ver_ s = read_data cfg i l)
    by (unfold getEntry, bind; rewrite Hlb; reflexivity).
  unfold s', result, exec. rewrite Hget.
  unfold read_data. do 3 unfold_monad.
  cbn [fst snd threads entry_space data_space log_access m_currLogMetadata].
  unfold entry_ofst. rewrite Hes, Hds, Hmd.
  repeat split; reflexivity.
Qed.

Lemma getEntry_finds_payload_witness :
  let cfg := Scenario.sample in
  let s := Scenario.scenario1 in
  let ver_ := entry_ver cfg s 1 in
  let s' := exec (getEntry cfg 8 ver_) s in
  result (getEntry cfg 8 ver_) s = Ret (entry_ofst cfg s 1) /\
  m_currLogMetadata s' = m_currLogMetadata s /\
  entry_space (threads s') = entry_space (threads s) /\
  data_space (threads s') = data_space (threads s).
Proof.
  apply (getEntry_finds_payload Scenario.sample Scenario.scenario1 1 8).
  - vm_compute. split; discriminate.
  - vm_compute. discriminate.
  - scenario1_sorted.
  - unfold live. vm_compute. split; [discriminate | reflexivity].
  - vm_compute. lia.
Defined.
